(** * P2MP-FTP: a stop-and-wait file transfer over UDP

    A shallow embedding of the two programs of the repository,

      - [P2MP-FTP Implementation/p2mpserver.c]   (the receiver), and
      - [Course Project Examples/p2mp_ftp/p2mpclient.c]   (the sender),

    and the properties their protocol description states about them.

    Conventions.  C integers are values in [Z]; every conversion to a
    narrower type is written out ([int16], [to_int], [to_size_t]).  Memory
    bytes are [Byte.byte]; a [char] read from memory is the signed value of
    the byte (x86-64 Linux, where [char] is signed).  Signed overflow and
    accesses outside an array are undefined in C: the model stops there
    with an explicit result instead of inventing a behaviour. *)

From Stdlib Require Import ZArith List Bool Lia PrimFloat Sorted.
From Stdlib Require Import Strings.Byte.
From Stdlib Require Import Numbers.Cyclic.Int63.Uint63.
Import ListNotations.

Local Open Scope Z_scope.

(* ------------------------------------------------------------------ *)
(** ** Machine integers and bytes *)

Module CInt.

(** Conversion to [int16_t]: the value is reduced modulo 2^16 into
    [-32768, 32767]. *)
Definition int16 (z : Z) : Z := (z + 32768) mod 65536 - 32768.

(** Conversion to [int] / [int32_t]. *)
Definition to_int (z : Z) : Z := (z + 2147483648) mod 4294967296 - 2147483648.

(** Conversion to [size_t] (64 bits, unsigned). *)
Definition to_size_t (z : Z) : Z := z mod 18446744073709551616.

Definition INT_MAX : Z := 2147483647.
Definition INT_MIN : Z := -2147483648.

Definition in_int (z : Z) : bool := (INT_MIN <=? z) && (z <=? INT_MAX).

(** The unsigned value of a memory byte, [0 .. 255]. *)
Definition byte_unsigned (b : byte) : Z := Z.of_N (Byte.to_N b).

(** The value of a byte read through a [char] lvalue: [-128 .. 127]. *)
Definition char_val (b : byte) : Z :=
  let u := byte_unsigned b in
  if 128 <=? u then u - 256 else u.

(** The byte that stores a given integer (conversion to [char]). *)
Definition byte_of_Z (z : Z) : byte :=
  match Byte.of_N (Z.to_N (z mod 256)) with
  | Some b => b
  | None => x00
  end.

End CInt.
Import CInt.

(* ------------------------------------------------------------------ *)
(** ** The checksum engine ([calculateChecksum], identical in both programs) *)

Module Checksum.

(** [buffer[i]]: reading outside the array has no defined result. *)
Definition read (buffer : list byte) (i : Z) : option Z :=
  if i <? 0 then None
  else option_map char_val (nth_error buffer (Z.to_nat i)).

(** The [for] loop of [calculateChecksum]:

      for (int i = 0; i < bufferSize - 1; i = i + 2) {
        word16 = ((buffer[i] << 8) & 0xFF00) + (buffer[i+1] & 0xFF);
        sum = sum + word16;
      }

    [fuel] bounds the number of iterations that remain.  The shift of a
    negative [char] is the arithmetic one, as compilers perform it.
    [bufferSize] is an [int], so the bound [bufferSize - 1] of the loop
    test leaves the range of [int] only below [INT_MIN]: that overflow
    has no defined result. *)
Fixpoint checksum_loop (fuel : nat) (buffer : list byte)
         (bufferSize i sum : Z) : option Z :=
  if bufferSize - 1 <? INT_MIN then None
  else if i <? bufferSize - 1 then
    match fuel with
    | O => None
    | S fuel' =>
        match read buffer i, read buffer (i + 1) with
        | Some c0, Some c1 =>
            let word16 :=
              int16 (Z.land (Z.shiftl c0 8) 0xFF00 + Z.land c1 0xFF) in
            checksum_loop fuel' buffer bufferSize (i + 2) (int16 (sum + word16))
        | _, _ => None
        end
    end
  else Some sum.

(** The odd-length tail:

      if ((bufferSize % 2) != 0) {
        word16 = ((buffer[bufferSize - 1] << 8) & 0xFF00);
        sum = sum + word16;
      }                                                             *)
Definition checksum_tail (buffer : list byte) (bufferSize sum : Z) : option Z :=
  if negb (Z.rem bufferSize 2 =? 0) then
    match read buffer (bufferSize - 1) with
    | Some c =>
        let word16 := int16 (Z.land (Z.shiftl c 8) 0xFF00) in
        Some (int16 (sum + word16))
    | None => None
    end
  else Some sum.

(** The part of the body after [sum] and [i] are initialised, with the
    initial values as parameters. *)
Definition checksum_from (fuel : nat) (buffer : list byte)
           (bufferSize i sum0 : Z) : option Z :=
  match checksum_loop fuel buffer bufferSize i sum0 with
  | Some sum =>
      match checksum_tail buffer bufferSize sum with
      | Some sum' => Some (int16 (Z.lnot sum'))
      | None => None
      end
  | None => None
  end.

(** [int16_t calculateChecksum(char *buffer, int bufferSize)].
    [None] is an access outside [buffer], or the overflow of
    [bufferSize - 1]. *)
Definition calculateChecksum (buffer : list byte) (bufferSize : Z) : option Z :=
  checksum_from (Z.to_nat bufferSize) buffer bufferSize 0 0.

(** *** The algorithm in the words of the protocol description *)

(** Consecutive bytes paired big-endian into 16-bit words, the last
    word padded with a zero byte when the length is odd. *)
Fixpoint words_be (bs : list byte) : list Z :=
  match bs with
  | [] => []
  | [b] => [256 * byte_unsigned b]
  | b0 :: b1 :: rest => (256 * byte_unsigned b0 + byte_unsigned b1) :: words_be rest
  end.

(** Sum with 16-bit wrap-around. *)
Definition sum16 (ws : list Z) : Z :=
  fold_left (fun s w => (s + w) mod 65536) ws 0.

(** One's complement of a 16-bit word. *)
Definition complement16 (s : Z) : Z := Z.lxor s 0xFFFF.

Definition checksum_spec (buffer : list byte) (length : nat) : Z :=
  complement16 (sum16 (words_be (firstn length buffer))).

(** The same sum by position, without wrap-around: a byte at an even
    offset weighs 256, a byte at an odd offset weighs 1.  [hi] tells
    whether the head of the list sits at an even offset. *)
Fixpoint wsum (hi : bool) (bs : list byte) : Z :=
  match bs with
  | [] => 0
  | b :: rest => (if hi then 256 else 1) * byte_unsigned b + wsum (negb hi) rest
  end.

(** *** Single-bit corruption *)

(** Flip bit [bit] of one byte. *)
Definition flip_bit (b : byte) (bit : nat) : byte :=
  byte_of_Z (Z.lxor (byte_unsigned b) (2 ^ Z.of_nat bit)).

(** Flip bit [bit] of the byte at position [idx]. *)
Fixpoint corrupt (buffer : list byte) (idx bit : nat) : list byte :=
  match buffer, idx with
  | [], _ => []
  | b :: rest, O => flip_bit b bit :: rest
  | b :: rest, S idx' => b :: corrupt rest idx' bit
  end.

End Checksum.
Import Checksum.

(* ------------------------------------------------------------------ *)
(** ** Wire format (the same declarations in both programs) *)

Module Wire.

(** [#define DATA_PKT 0b0101010101010101] *)
Definition DATA_PKT : Z := 0x5555.
(** [#define ACK_PKT  0b1010101010101010] *)
Definition ACK_PKT : Z := 0xAAAA.
Definition MAX_MSS : Z := 1024.
Definition INVALID_SEQ_NO : Z := -1.

(** [struct header_t { int32_t seqNum; int16_t checksum; int16_t type; }] *)
Record Header : Type := mkHeader {
  seqNum : Z;
  checksum : Z;
  type : Z
}.

Definition sizeof_Header : Z := 8.

(** [struct packet_t { Header hdr; char data[MAX_MSS]; }].  [data] holds
    the bytes of the array that travel in the datagram: a datagram of
    [sizeof(Header) + n] bytes carries [data[0 .. n-1]]. *)
Record Packet : Type := mkPacket {
  hdr : Header;
  data : list byte
}.

(** [struct ack_t { Header hdr; }]: an acknowledgement is a bare header. *)
Definition Ack : Type := Header.

End Wire.
Import Wire.

(* ------------------------------------------------------------------ *)
(** ** The receiver ([main] of p2mpserver.c) *)

Module Receiver.

(** The variables of [main] that the loop reads and writes, the output
    file, and the datagrams handed to [sendto].  [writes] is a history
    variable: one entry per [fwrite], holding [dataPacket.hdr.seqNum]
    at that moment and the bytes written. *)
Record Session : Type := mkSession {
  expectedSeqNum : Z;
  lastSeqNum : Z;
  file : list byte;
  sent : list Ack;
  writes : list (Z * list byte)
}.

(** [int expectedSeqNum = 0; int lastSeqNum = INVALID_SEQ_NO;] and the
    file just opened with mode "wb". *)
Definition initial : Session :=
  {| expectedSeqNum := 0;
     lastSeqNum := INVALID_SEQ_NO;
     file := [];
     sent := [];
     writes := [] |}.

(** What one call of [recvfrom] delivers.  A datagram is modelled from a
    complete header upward, so [f_recv_size] is [sizeof(Header)] plus the
    payload length. *)
Inductive Received : Type :=
| RecvFailed                  (* f_recv_size <= 0 *)
| Datagram (dataPacket : Packet).

(** How one iteration of [while (1)] ends. *)
Inductive Outcome : Type :=
| Continue (st : Session)     (* [continue], or the end of the body *)
| Break (st : Session)        (* [break]: the socket and the file are closed *)
| Exit (st : Session)         (* "Fatal Error recvfrom failed", [exit(0)] *)
| Undefined.                  (* [expectedSeqNum++] at [INT_MAX] *)

(** [(double) randNum], for the values [rand() % 100] takes. *)
Definition double_of_int (z : Z) : float := PrimFloat.of_uint63 (Uint63.of_Z z).

(** The loss draw:

      int randNum = rand() % 100;
      double randPacketLossProb = ((double) randNum / 100);
      if (randPacketLossProb <= packetLossProb) ...

    [rand] is the value returned by [rand()]. *)
Definition simulated_loss (packetLossProb : float) (rand : Z) : bool :=
  let randNum := Z.rem rand 100 in
  let randPacketLossProb := PrimFloat.div (double_of_int randNum) 100%float in
  PrimFloat.leb randPacketLossProb packetLossProb.

(** The acknowledgement built in both branches. *)
Definition ack_for (seq : Z) : Ack :=
  {| seqNum := seq; checksum := 0; type := int16 ACK_PKT |}.

(** The in-sequence branch:

      ackPacket.hdr.seqNum = expectedSeqNum;  ...  sendto(...);
      fwrite(dataPacket.data, 1, bufferSize, file);
      lastSeqNum = expectedSeqNum;
      expectedSeqNum++;                                             *)
Definition accept (st : Session) (dataPacket : Packet) : Session :=
  {| expectedSeqNum := expectedSeqNum st + 1;
     lastSeqNum := expectedSeqNum st;
     file := file st ++ data dataPacket;
     sent := sent st ++ [ack_for (expectedSeqNum st)];
     writes := writes st ++ [(seqNum (hdr dataPacket), data dataPacket)] |}.

(** The out-of-sequence branch:

      ackPacket.hdr.seqNum = lastSeqNum;  ...  sendto(...);         *)
Definition reack (st : Session) : Session :=
  {| expectedSeqNum := expectedSeqNum st;
     lastSeqNum := lastSeqNum st;
     file := file st;
     sent := sent st ++ [ack_for (lastSeqNum st)];
     writes := writes st |}.

(** [if (bufferSize == 0) break;] at the end of the body. *)
Definition end_of_body (bufferSize : Z) (st : Session) : Outcome :=
  if bufferSize =? 0 then Break st else Continue st.

(** One iteration of the loop.  [rand] is what [rand()] returns if this
    iteration calls it. *)
Definition loop_body (packetLossProb : float) (st : Session)
           (received : Received) (rand : Z) : Outcome :=
  match received with
  | RecvFailed => Exit st
  | Datagram dataPacket =>
      let f_recv_size := sizeof_Header + Z.of_nat (length (data dataPacket)) in
      if (0 <? f_recv_size) && (type (hdr dataPacket) =? DATA_PKT) then
        let bufferSize := f_recv_size - sizeof_Header in
        match calculateChecksum (data dataPacket) bufferSize with
        | None => Undefined
        | Some cksum =>
            if negb (cksum =? checksum (hdr dataPacket)) then Continue st
            else if simulated_loss packetLossProb rand then Continue st
            else if seqNum (hdr dataPacket) =? expectedSeqNum st then
              if expectedSeqNum st =? INT_MAX then Undefined
              else end_of_body bufferSize (accept st dataPacket)
            else if negb (seqNum (hdr dataPacket) =? expectedSeqNum st) then
              end_of_body bufferSize (reack st)
            else end_of_body bufferSize st
        end
      else Exit st
  end.

(** The loop, run on the datagrams that arrive, each paired with the
    value [rand()] would return for it.  When the list is used up the
    receiver is blocked in [recvfrom]. *)
Fixpoint receive_loop (packetLossProb : float) (st : Session)
         (arrivals : list (Received * Z)) : Outcome :=
  match arrivals with
  | [] => Continue st
  | (received, rand) :: rest =>
      match loop_body packetLossProb st received rand with
      | Continue st' => receive_loop packetLossProb st' rest
      | out => out
      end
  end.

(** The session an outcome carries, if any. *)
Definition session_of (out : Outcome) : option Session :=
  match out with
  | Continue st | Break st | Exit st => Some st
  | Undefined => None
  end.

(** *** Vocabulary of the statements below *)

(** The datagram is tagged DATA. *)
Definition is_data (pkt : Packet) : bool := type (hdr pkt) =? DATA_PKT.

(** The checksum recomputed over the payload equals the header's. *)
Definition checksum_ok (pkt : Packet) : bool :=
  match calculateChecksum (data pkt) (Z.of_nat (length (data pkt))) with
  | Some c => c =? checksum (hdr pkt)
  | None => false
  end.

(** The sessions the loop can be in while it runs. *)
Definition reachable (packetLossProb : float) (st : Session) : Prop :=
  exists arrivals, receive_loop packetLossProb initial arrivals = Continue st.

(** The sequence number of the packet accepted last, [INVALID_SEQ_NO]
    when none has been. *)
Definition last_accepted (st : Session) : Z :=
  last (map fst (writes st)) INVALID_SEQ_NO.

(** The session invariant. *)
Definition session_inv (st : Session) : Prop :=
  lastSeqNum st = expectedSeqNum st - 1
  /\ expectedSeqNum st = Z.of_nat (length (writes st))
  /\ map fst (writes st) = map Z.of_nat (seq 0 (length (writes st)))
  /\ file st = concat (map snd (writes st)).

(** *** Packets used as examples *)

(** A well-formed one-byte packet with sequence number 0. *)
Definition first_packet : Packet :=
  {| hdr := {| seqNum := 0; checksum := -16641; type := DATA_PKT |};
     data := [x41] |}.


(** A well-formed one-byte packet with sequence number 5. *)
Definition later_packet : Packet :=
  {| hdr := {| seqNum := 5; checksum := -16641; type := DATA_PKT |};
     data := [x41] |}.

(** The same one-byte packet with a wrong checksum field. *)
Definition damaged_packet : Packet :=
  {| hdr := {| seqNum := 0; checksum := 7; type := DATA_PKT |};
     data := [x41] |}.

End Receiver.
Import Receiver.

(* ------------------------------------------------------------------ *)
(** ** The sender (p2mpclient.c) *)

Module Sender.

(** [#define MAX_SERVERS 10] *)
Definition MAX_SERVERS : Z := 10.

(** What [recvfrom] on a link returns before the timeout of 120 ms. *)
Inductive Reply : Type :=
| NoReply                     (* f_recv_size <= 0 *)
| Replied (ack : Ack).        (* f_recv_size > 0 *)

(** How a piece of the sender ends. *)
Inductive Run (A : Type) : Type :=
| Done (a : A)                (* it returns *)
| Stalled                     (* still retransmitting after the retries looked at *)
| ShortRead                   (* "Fatal Error nread ...", [exit(2)] *)
| Faulty.                     (* undefined behaviour in C *)
Arguments Done {A} a.
Arguments Stalled {A}.
Arguments ShortRead {A}.
Arguments Faulty {A}.

(** [strncpy(dest, src, n)]: the [n] bytes stored in [dest].  The copy
    stops after the first NUL of [src] and the rest of the [n] bytes is
    filled with NULs.  [None]: [src] is read beyond its end. *)
Fixpoint strncpy (src : list byte) (n : nat) {struct n} : option (list byte) :=
  match n with
  | O => Some []
  | S n' =>
      match src with
      | [] => None
      | c :: src' =>
          if Byte.eqb c x00 then Some (repeat x00 (S n'))
          else option_map (cons c) (strncpy src' n')
      end
  end.

(** The first lines of [sendPacket]:

      packet.hdr.seqNum = segmentNum;
      packet.hdr.type  = DATA_PKT;
      strncpy(packet.data, buffer, bufferSize);
      packet.hdr.checksum  = calculateChecksum(packet.data, bufferSize);
      packet.data[bufferSize] = '\0';

    The result is the datagram of [bufferSize + sizeof(Header)] bytes.
    A negative [bufferSize] (a huge [size_t] for [strncpy]) and
    [bufferSize >= MAX_MSS] (the store to [packet.data[bufferSize]])
    leave the array. *)
Definition frame (segmentNum : Z) (buffer : list byte) (bufferSize : Z)
  : option Packet :=
  if (bufferSize <? 0) || (MAX_MSS <=? bufferSize) then None
  else
    match strncpy buffer (Z.to_nat bufferSize) with
    | None => None
    | Some packet_data =>
        match calculateChecksum packet_data bufferSize with
        | None => None
        | Some cksum =>
            Some {| hdr := {| seqNum := segmentNum;
                              checksum := cksum;
                              type := int16 DATA_PKT |};
                    data := packet_data |}
        end
    end.

(** [fread(buffer, 1, bufferSize, file)]: the bytes read replace the
    front of [buffer]; the result is the new buffer, the bytes left in
    the file, and the count returned.  [None]: more than [MAX_MSS]
    bytes are stored. *)
Definition fread (buffer unread : list byte) (bufferSize : Z)
  : option (list byte * list byte * Z) :=
  let count := to_size_t bufferSize in
  let got := if Z.of_nat (length unread) <=? count then unread
             else firstn (Z.to_nat count) unread in
  let nread := Z.of_nat (length got) in
  if MAX_MSS <? nread then None
  else Some (got ++ skipn (length got) buffer, skipn (length got) unread, nread).

Section Transport.

(** The datagram service under the sender: [exchange net serverNum
    packet] is [sendto] of [packet] on the socket of server
    [serverNum] followed by [recvfrom] on it. *)
Variable Net : Type.
Variable exchange : Net -> nat -> Packet -> Net * Reply.

(** The retry loop for one server:

      while (!servers[serverNum].ackReceived) {
        sendto(...);  ...  recvfrom(...);
        if (f_recv_size > 0 && ack.hdr.seqNum == segmentNum) ackReceived = true;
        else if (f_recv_size > 0) {
          ackReceived = false;
          if (ack.hdr.seqNum == INVALID_SEQ_NO) break;
        } else printf("Timeout, ...");
      }

    [retries] bounds the transmissions looked at; [None] when they
    are used up. *)
Fixpoint await_ack (retries : nat) (net : Net) (serverNum : nat)
         (packet : Packet) (segmentNum : Z) : option Net :=
  match retries with
  | O => None
  | S retries' =>
      let (net', reply) := exchange net serverNum packet in
      match reply with
      | Replied ack =>
          if seqNum ack =? segmentNum then Some net'
          else if seqNum ack =? INVALID_SEQ_NO then Some net'
          else await_ack retries' net' serverNum packet segmentNum
      | NoReply => await_ack retries' net' serverNum packet segmentNum
      end
  end.

(** [for (int serverNum = 0; serverNum < numServers; serverNum++)],
    from [serverNum] on, [remaining] servers to go. *)
Fixpoint each_server (retries : nat) (net : Net) (serverNum remaining : nat)
         (packet : Packet) (segmentNum : Z) : option Net :=
  match remaining with
  | O => Some net
  | S remaining' =>
      match await_ack retries net serverNum packet segmentNum with
      | Some net' =>
          each_server retries net' (S serverNum) remaining' packet segmentNum
      | None => None
      end
  end.

(** [void sendPacket(int segmentNum, char *buffer, int bufferSize)] *)
Definition sendPacket (retries : nat) (numServers : nat) (net : Net)
           (segmentNum : Z) (buffer : list byte) (bufferSize : Z) : Run Net :=
  match frame segmentNum buffer bufferSize with
  | None => Faulty
  | Some packet =>
      match each_server retries net 0 numServers packet segmentNum with
      | Some net' => Done net'
      | None => Stalled
      end
  end.

(** The loop of [main]:

      while (segmentNum < numSegments) {
        if (segmentNum < (numSegments - 1)) bufferSize = mss;
        else bufferSize = fileLength - (mss * segmentNum);
        int nread = fread(buffer, 1, bufferSize, file);
        if (nread != bufferSize) { ...; exit(2); }
        sendPacket(segmentNum, buffer, bufferSize);
        segmentNum++;
      }

    It returns the network, [buffer] and [segmentNum] it ends with.
    [fuel] bounds the iterations.  The product [mss * segmentNum] is an
    [int] (its overflow is undefined); the difference is taken in
    [size_t] and stored in the [int] [bufferSize]. *)
Fixpoint segment_loop (fuel : nat) (retries numServers : nat)
         (fileLength mss numSegments : Z)
         (net : Net) (unread buffer : list byte) (segmentNum : Z)
  : Run (Net * list byte * Z) :=
  if segmentNum <? numSegments then
    match fuel with
    | O => Stalled
    | S fuel' =>
        let size :=
          if segmentNum <? numSegments - 1 then Some mss
          else if in_int (mss * segmentNum)
               then Some (to_int (to_size_t (fileLength - to_size_t (mss * segmentNum))))
               else None in
        match size with
        | None => Faulty
        | Some bufferSize =>
            match fread buffer unread bufferSize with
            | None => Faulty
            | Some (buffer', unread', nread) =>
                if negb (nread =? bufferSize) then ShortRead
                else
                  match sendPacket retries numServers net segmentNum buffer' bufferSize with
                  | Done net' =>
                      segment_loop fuel' retries numServers fileLength mss numSegments
                                   net' unread' buffer' (segmentNum + 1)
                  | Stalled => Stalled
                  | ShortRead => ShortRead
                  | Faulty => Faulty
                  end
            end
        end
    end
  else Done (net, buffer, segmentNum).

(** [main], from the file opened for reading on.  [contents] are the
    bytes of the file, [buffer] is what the array [buffer[MAX_MSS]]
    holds before it is first written, [numServers] is [argc - 4]. *)
Definition main (retries : nat) (numServers : nat) (net : Net)
           (contents : list byte) (mss : Z) (buffer : list byte) : Run Net :=
  if MAX_SERVERS <? Z.of_nat numServers then Faulty
  else if to_size_t mss =? 0 then Faulty
  else
    let fileLength := Z.of_nat (length contents) in
    let numSegments := to_int (to_size_t (fileLength / to_size_t mss + 1)) in
    match segment_loop (S (length contents)) retries numServers
                       fileLength mss numSegments net contents buffer 0 with
    | Done (net', buffer', segmentNum) =>
        sendPacket retries numServers net' segmentNum buffer' 0
    | Stalled => Stalled
    | ShortRead => ShortRead
    | Faulty => Faulty
    end.

End Transport.

(** *** Two transports *)

(** A link that records every datagram and answers each with the
    acknowledgement of its own sequence number. *)
Definition Recorded : Type := list (nat * Packet).

Definition acknowledge_all (net : Recorded) (serverNum : nat) (packet : Packet)
  : Recorded * Reply :=
  (net ++ [(serverNum, packet)], Replied (ack_for (seqNum (hdr packet)))).

(** Receivers of p2mpserver.c at the other end, one per server.  Every
    datagram reaches its receiver, which draws [rand] for it; the reply
    is the acknowledgement that iteration sent, if any.  A receiver
    that has left its loop answers nothing. *)
Definition Receivers : Type := list Outcome.

Definition deliver (packetLossProb : float) (rand : Z) (peer : Outcome)
           (packet : Packet) : Outcome * Reply :=
  match peer with
  | Continue st =>
      let out := loop_body packetLossProb st (Datagram packet) rand in
      match session_of out with
      | Some st' =>
          if (length (sent st) <? length (sent st'))%nat
          then (out, Replied (last (sent st') (ack_for INVALID_SEQ_NO)))
          else (out, NoReply)
      | None => (out, NoReply)
      end
  | _ => (peer, NoReply)
  end.

Fixpoint to_receiver (packetLossProb : float) (rand : Z) (net : Receivers)
         (serverNum : nat) (packet : Packet) : Receivers * Reply :=
  match net, serverNum with
  | [], _ => ([], NoReply)
  | peer :: others, O =>
      let (peer', reply) := deliver packetLossProb rand peer packet in
      (peer' :: others, reply)
  | peer :: others, S serverNum' =>
      let (others', reply) :=
        to_receiver packetLossProb rand others serverNum' packet in
      (peer :: others', reply)
  end.

(** What has been written by the receiver an outcome belongs to. *)
Definition output_file (peer : Outcome) : option (list byte) :=
  option_map file (session_of peer).

(** *** What the sender puts on the wire *)

(** The payload of the packet framed for a segment. *)
Definition wire_payload (segment : list byte) : list byte :=
  match strncpy segment (length segment) with
  | Some packet_data => packet_data
  | None => segment
  end.

(** The data packet framed for a segment. *)
Definition data_packet (seq : Z) (segment : list byte) : Packet :=
  {| hdr := {| seqNum := seq;
               checksum := int16 (checksum_spec (wire_payload segment) (length segment));
               type := DATA_PKT |};
     data := wire_payload segment |}.

(** [count] segments of [mss] bytes from the front of the file, and then
    the segment of the bytes that are left. *)
Fixpoint file_segments (count mss : nat) (unread : list byte) : list (list byte) :=
  match count with
  | O => [unread]
  | S count' => firstn mss unread :: file_segments count' mss (skipn mss unread)
  end.

(** The packets of consecutive segments, numbered from [seq], as the
    recording link to server 0 lists them. *)
Fixpoint numbered (seq : Z) (segments : list (list byte)) : Recorded :=
  match segments with
  | [] => []
  | segment :: rest => (0%nat, data_packet seq segment) :: numbered (seq + 1) rest
  end.

(** *** Inputs used as examples *)

(** The array [buffer[MAX_MSS]] of [main] before the first [fread]. *)
Definition blank_buffer : list byte := repeat x00 (Z.to_nat MAX_MSS).

(** A three-byte file with a NUL byte in the middle. *)
Definition file_with_nul : list byte := [x41; x00; x42].

(** A file of exactly two bytes, sent with [mss = 2]. *)
Definition two_byte_file : list byte := [x41; x42].

(** The zero-length data packet with sequence number [seq]. *)
Definition empty_packet (seq : Z) : Packet :=
  {| hdr := {| seqNum := seq; checksum := -1; type := DATA_PKT |};
     data := [] |}.

End Sender.
Import Sender.

(* ------------------------------------------------------------------ *)
(** ** Two rules in the wording of the protocol description *)

Module AsStated.


(** Simulated loss: a checksum-valid DATA packet is dropped (no
    acknowledgement, nothing changes) exactly when the draw in [0,100)
    is strictly below [lossProbability * 100]. *)
Definition dropped_when_below
           (packetLossProb : float) (st : Session) (pkt : Packet) (rand : Z) : Prop :=
  loop_body packetLossProb st (Datagram pkt) rand = Continue st
  <->
  PrimFloat.ltb (double_of_int (Z.rem rand 100))
                (PrimFloat.mul packetLossProb 100%float) = true.

(** Re-acknowledgement: every DATA packet whose sequence number differs
    from [expectedSeqNum] is answered with an acknowledgement carrying
    [lastSeqNum]; nothing is written and both counters stay as they
    were. *)
Definition reacknowledged_when_out_of_sequence
           (packetLossProb : float) (st : Session) (pkt : Packet) (rand : Z) : Prop :=
  is_data pkt = true ->
  seqNum (hdr pkt) <> expectedSeqNum st ->
  exists st',
    session_of (loop_body packetLossProb st (Datagram pkt) rand) = Some st'
    /\ sent st'
       = sent st ++ [{| seqNum := lastSeqNum st; checksum := 0; type := int16 ACK_PKT |}]
    /\ file st' = file st
    /\ expectedSeqNum st' = expectedSeqNum st
    /\ lastSeqNum st' = lastSeqNum st.

End AsStated.

(* ------------------------------------------------------------------ *)
(** ** Changes to a buffer, for the statements about what the checksum
       detects *)

Module Tamper.

(** [buffer[idx] = b].  Outside the buffer nothing is stored. *)
Fixpoint store (buffer : list byte) (idx : nat) (b : byte) : list byte :=
  match buffer, idx with
  | [], _ => []
  | _ :: rest, O => b :: rest
  | c :: rest, S idx' => c :: store rest idx' b
  end.

End Tamper.
Import Tamper.

(* ------------------------------------------------------------------ *)
(** ** More transports for the sender *)

Module Script.

(** A link whose replies are written down in advance: every [sendto] is
    recorded and every [recvfrom] takes the next reply of the script;
    when the script is used up nothing arrives any more. *)
Definition Scripted : Type := (list Reply * list (nat * Packet))%type.

Definition scripted (net : Scripted) (serverNum : nat) (packet : Packet)
  : Scripted * Reply :=
  let (replies, log) := net in
  match replies with
  | [] => (([], log ++ [(serverNum, packet)]), NoReply)
  | reply :: later => ((later, log ++ [(serverNum, packet)]), reply)
  end.

(** The replies on which the retry loop of [sendPacket] goes round
    again: a timeout, or an acknowledgement that carries neither
    [segmentNum] nor [INVALID_SEQ_NO]. *)
Definition keeps_waiting (segmentNum : Z) (reply : Reply) : bool :=
  match reply with
  | NoReply => true
  | Replied ack =>
      negb (seqNum ack =? segmentNum) && negb (seqNum ack =? INVALID_SEQ_NO)
  end.

End Script.
Import Script.

(* ------------------------------------------------------------------ *)
(** ** The sender against receivers over links that lose datagrams *)

Module Lossy.

Section SendAll.

Variable Net : Type.
Variable exchange : Net -> nat -> Packet -> Net * Reply.

(** [sendPacket] called on consecutive segments, numbered from [seq], as
    long as it returns. *)
Fixpoint send_all (retries numServers : nat) (net : Net) (seq : Z)
         (segments : list (list byte)) : Run Net :=
  match segments with
  | [] => Done net
  | segment :: rest =>
      match sendPacket Net exchange retries numServers net seq segment
                       (Z.of_nat (length segment)) with
      | Done net' => send_all retries numServers net' (seq + 1) rest
      | Stalled => Stalled
      | ShortRead => ShortRead
      | Faulty => Faulty
      end
  end.

End SendAll.

(** What happens to one datagram on its way: it is lost, or it arrives,
    the receiver draws [rand] for it, and the acknowledgement the
    receiver may send comes back ([ack_returns]) or is lost. *)
Inductive Transit : Type :=
| Lost
| Arrives (rand : Z) (ack_returns : bool).

(** The link to one server: the loss probability its receiver was
    started with, what happens to the datagrams sent on it, in order,
    and its receiver.  When [link_transits] is used up every further
    datagram is lost. *)
Record Link : Type := mkLink {
  link_loss : float;
  link_transits : list Transit;
  link_peer : Outcome
}.

Definition Links : Type := list Link.

(** [sendto] and [recvfrom] on one link. *)
Definition over_link (link : Link) (packet : Packet) : Link * Reply :=
  match link_transits link with
  | [] => (link, NoReply)
  | Lost :: later =>
      ({| link_loss := link_loss link;
          link_transits := later;
          link_peer := link_peer link |}, NoReply)
  | Arrives rand ack_returns :: later =>
      let (peer', reply) := deliver (link_loss link) rand (link_peer link) packet in
      ({| link_loss := link_loss link;
          link_transits := later;
          link_peer := peer' |},
       if ack_returns then reply else NoReply)
  end.

(** [sendto] and [recvfrom] on the link to server [serverNum]. *)
Fixpoint over_links (net : Links) (serverNum : nat) (packet : Packet)
  : Links * Reply :=
  match net, serverNum with
  | [], _ => ([], NoReply)
  | link :: others, O =>
      let (link', reply) := over_link link packet in
      (link' :: others, reply)
  | link :: others, S serverNum' =>
      let (others', reply) := over_links others serverNum' packet in
      (link :: others', reply)
  end.

(** A link whose receiver has just been started. *)
Definition fresh (link : Link) : Prop := link_peer link = Continue initial.

(** A link whose receiver has left its loop with [break], having written
    [written]. *)
Definition finished_with (written : list byte) (link : Link) : Prop :=
  exists st, link_peer link = Break st /\ file st = written.

(** The receiver of a link expects segment [seq], has written [written],
    and is still in its loop ([running]) or has left it with [break]. *)
Definition link_at (running : bool) (seq : Z) (written : list byte)
           (link : Link) : Prop :=
  exists st,
    link_peer link = (if running then Continue st else Break st)
    /\ expectedSeqNum st = seq
    /\ lastSeqNum st = seq - 1
    /\ file st = written.

(** Whether a segment has bytes. *)
Definition nonempty (segment : list byte) : bool :=
  match segment with [] => false | _ :: _ => true end.

(** Two links for the examples: one loses the first datagram and the
    first acknowledgement, the other, whose receiver drops with
    probability one half, drops the first datagram it gets. *)
Definition two_links : Links :=
  [ {| link_loss := 0%float;
       link_transits := [Lost; Arrives 50 false; Arrives 50 true;
                         Arrives 50 true; Arrives 50 true];
       link_peer := Continue initial |};
    {| link_loss := 0.5%float;
       link_transits := [Arrives 20 true; Arrives 70 true;
                         Arrives 80 true; Arrives 90 true];
       link_peer := Continue initial |} ].

(** A three-byte file without NUL bytes. *)
Definition three_byte_file : list byte := [x41; x42; x43].

End Lossy.
Import Lossy.

(* ------------------------------------------------------------------ *)
(** ** Links on which nothing is lost for a while *)

Module Clear.

(** The datagram arrives, the receiver's draw does not drop it, and the
    acknowledgement comes back. *)
Definition passes (packetLossProb : float) (transit : Transit) : bool :=
  match transit with
  | Arrives rand true => negb (simulated_loss packetLossProb rand)
  | _ => false
  end.

(** The next [count] datagrams pass. *)
Fixpoint clear_run (packetLossProb : float) (count : nat)
         (transits : list Transit) : bool :=
  match count with
  | O => true
  | S count' =>
      match transits with
      | transit :: later =>
          passes packetLossProb transit && clear_run packetLossProb count' later
      | [] => false
      end
  end.

Definition clear_for (count : nat) (link : Link) : Prop :=
  clear_run (link_loss link) count (link_transits link) = true.

End Clear.
Import Clear.

(* ------------------------------------------------------------------ *)
(** ** Inputs of the examples on lossy links *)

Module Samples.

(** One link to a receiver just started, on which everything arrives. *)
Definition one_link : Links :=
  [ {| link_loss := 0%float;
       link_transits := [Arrives 50 true; Arrives 50 true; Arrives 50 true];
       link_peer := Continue initial |} ].

(** An acknowledgement, which is not a DATA packet. *)
Definition stray_ack : Packet :=
  {| hdr := ack_for 0; data := [] |}.

End Samples.
Import Samples.

(* ------------------------------------------------------------------ *)
(** ** The array list (arrayList.c) *)

Module ArrayList.

(** A [void *]: an address, [NULL] being 0. *)
Definition ptr : Type := Z.
Definition NULL : ptr := 0.

(** The cells of one allocation of [void *]s.  A cell that has never been
    written holds [None]. *)
Definition block : Type := list (option ptr).

(** [struct arrayList { size_t size; void ** data; }].  [data] is [None]
    for the null pointer, and otherwise the block it points to. *)
Record arrayList : Type := mkList {
  size : Z;
  data : option block
}.

(** A step of the code: its result, or undefined behaviour (an access
    outside a block or through a null pointer, the use of a cell that was
    never written).  Allocations are taken to succeed. *)
Inductive Res (A : Type) : Type :=
| Ok (a : A)
| Fault.
Arguments Ok {A} a.
Arguments Fault {A}.

Definition SIZE_MAX : Z := 18446744073709551615.

(** The size of a [void] pointer. *)
Definition sizeof_ptr : Z := 8.

(** [realloc(p, bytes)]: the cells that fit are kept, new cells have
    never been written. *)
Definition realloc (p : option block) (bytes : Z) : block :=
  let slots := Z.to_nat (bytes / sizeof_ptr) in
  match p with
  | None => repeat None slots
  | Some cells => firstn slots cells ++ repeat None (slots - List.length cells)
  end.

(** [cells[i] = c] *)
Fixpoint store_cell (cells : block) (i : nat) (c : option ptr) : block :=
  match cells, i with
  | [], _ => []
  | _ :: rest, O => c :: rest
  | d :: rest, S i' => d :: store_cell rest i' c
  end.

(** [createList]: [size = 0], [data] a zeroed block of two pointers
    from [calloc], [data[0] = NULL]. *)
Definition createList : arrayList :=
  {| size := 0; data := Some [Some NULL; Some NULL] |}.

(** [clear]: [size = 0; free(data); data = NULL]. *)
Definition clear (list : arrayList) : arrayList :=
  {| size := 0; data := None |}.

(** [setData(list, data, max, clear_data)]: [max] is an [int], stored in
    the [size_t] field.  [clear] only frees the block the list had, which
    is taken to be another one than [new_data]. *)
Definition setData (list : arrayList) (new_data : option block) (max : Z)
           (clear_data : Z) : arrayList :=
  let list' := if clear_data =? 0 then list else clear list in
  {| size := to_size_t max; data := new_data |}.

(** [memorySize]: the [sizeof] of one element of [data], a pointer. *)
Definition memorySize (list : arrayList) : Z := sizeof_ptr.

(** [length] *)
Definition length (list : arrayList) : Z := size list.

(** [get]: [list->data[index]]. *)
Definition get (list : arrayList) (index : Z) : Res ptr :=
  match data list with
  | None => Fault
  | Some cells =>
      if index <? 0 then Fault
      else match nth_error cells (Z.to_nat index) with
           | Some (Some p) => Ok p
           | _ => Fault
           end
  end.

(** [add]:

      void ** new_data = realloc( list->data, memorySize( list ) );
      new_data[ list->size ] = elem;
      setData( list, new_data, list->size + 1, 0 );                    *)
Definition add (list : arrayList) (elem : ptr) : Res arrayList :=
  let new_data := realloc (data list) (memorySize list) in
  if (0 <=? size list) && (size list <? Z.of_nat (List.length new_data)) then
    let new_data' := store_cell new_data (Z.to_nat (size list)) (Some elem) in
    Ok (setData list (Some new_data') (to_int (to_size_t (size list + 1))) 0)
  else Fault.

(** The loop of [remove]:

      for ( int i = index; i < list->size; ++i ) {
          if ( i == list->size - 1 ) list->data[ i ] = NULL;
          else list->data[ i ] = list->data[ i + 1 ];
      }

    [i] is compared with the [size_t] values as a [size_t], and [i + 1]
    has to be an [int].  An iteration that stays inside the block moves
    [i] one cell on, so [fuel], the number of cells plus one, is never
    used up. *)
Fixpoint shift (fuel : nat) (cells : block) (size i : Z) : Res block :=
  if to_size_t i <? size then
    match fuel with
    | O => Fault
    | S fuel' =>
        if (i <? 0) || (Z.of_nat (List.length cells) <=? i) then Fault
        else if INT_MAX <? i + 1 then Fault
        else if to_size_t i =? to_size_t (size - 1) then
          shift fuel' (store_cell cells (Z.to_nat i) (Some NULL)) size (i + 1)
        else
          match nth_error cells (Z.to_nat (i + 1)) with
          | Some c => shift fuel' (store_cell cells (Z.to_nat i) c) size (i + 1)
          | None => Fault
          end
    end
  else Ok cells.

(** [remove(list, index, freeit)]: the list afterwards and the pointers
    passed to [free]. *)
Definition remove (list : arrayList) (index : Z) (freeit : Z)
  : Res (arrayList * Datatypes.list ptr) :=
  if to_size_t index >? to_size_t (size list - 1) then Ok (list, [])
  else if size list =? 1 then Ok (clear list, [])
  else
    let freed :=
      if freeit =? 0 then Ok []
      else match get list index with
           | Ok p => Ok [p]
           | Fault => Fault
           end in
    match freed with
    | Fault => Fault
    | Ok freed =>
        let shifted :=
          match data list with
          | Some cells =>
              match shift (S (List.length cells)) cells (size list) index with
              | Ok cells' => Ok (Some cells')
              | Fault => Fault
              end
          | None => if to_size_t index <? size list then Fault else Ok None
          end in
        match shifted with
        | Fault => Fault
        | Ok shifted_data =>
            let new_data := realloc shifted_data (memorySize list) in
            let size' := to_size_t (size list - 1) in
            Ok (setData {| size := size'; data := shifted_data |}
                        (Some new_data) (to_int size') 0, freed)
        end
    end.

(** The loop of [getindex]:

      for( int i = 0; i < list->size; ++i )
          if ( elem == get( list, i ) ) return i;
      return -1;                                                       *)
Fixpoint search (fuel : nat) (list : arrayList) (elem : ptr) (i : Z) : Res Z :=
  if to_size_t i <? size list then
    match fuel with
    | O => Fault
    | S fuel' =>
        match get list i with
        | Ok p =>
            if elem =? p then Ok i
            else if INT_MAX <? i + 1 then Fault
            else search fuel' list elem (i + 1)
        | Fault => Fault
        end
    end
  else Ok (-1).

(** The number of cells [data] points to. *)
Definition capacity (list : arrayList) : nat :=
  match data list with
  | None => O
  | Some cells => List.length cells
  end.

(** [getindex] *)
Definition getindex (list : arrayList) (elem : ptr) : Res Z :=
  search (S (capacity list)) list elem 0.

(** A list as [setData] installs it: [size] elements in a block that
    holds exactly them. *)
Definition holding (elems : list ptr) : arrayList :=
  {| size := Z.of_nat (List.length elems); data := Some (map Some elems) |}.

End ArrayList.

(* ================================================================== *)
(** * Properties *)

(* ------------------------------------------------------------------ *)
(** ** Arithmetic of the conversions *)

Section Int16Facts.

Lemma int16_decomp z : exists k, int16 z = z + 65536 * k.
Proof.
  exists (- ((z + 32768) / 65536)). unfold int16.
  pose proof (Z.div_mod (z + 32768) 65536). lia.
Qed.

Lemma int16_congr a b : (exists k, a = b + 65536 * k) -> int16 a = int16 b.
Proof.
  intros [k ->]. unfold int16.
  replace (b + 65536 * k + 32768) with (b + 32768 + k * 65536) by ring.
  now rewrite Z.mod_add by lia.
Qed.

Lemma int16_inj_mod a b : int16 a = int16 b -> exists k, a = b + 65536 * k.
Proof.
  intros H.
  destruct (int16_decomp a) as [ka Ha], (int16_decomp b) as [kb Hb].
  exists (kb - ka). lia.
Qed.

Lemma int16_mod z : int16 z mod 65536 = z mod 65536.
Proof.
  destruct (int16_decomp z) as [k ->].
  replace (z + 65536 * k) with (z + k * 65536) by ring.
  now rewrite Z.mod_add by lia.
Qed.

Lemma lnot_sub z : Z.lnot z = - z - 1.
Proof. unfold Z.lnot. lia. Qed.

End Int16Facts.

Section ByteFacts.

(** The masks of [calculateChecksum] undo the sign extension of [char]. *)
Lemma high_byte_mask b :
  Z.land (Z.shiftl (char_val b) 8) 0xFF00 = 256 * byte_unsigned b.
Proof. destruct b; reflexivity. Qed.

Lemma low_byte_mask b : Z.land (char_val b) 0xFF = byte_unsigned b.
Proof. destruct b; reflexivity. Qed.

End ByteFacts.

(* ------------------------------------------------------------------ *)
(** ** The checksum engine *)

Section ChecksumFacts.

(** Induction on byte lists two elements at a time, as the loop of
    [calculateChecksum] walks them. *)
Lemma byte_pairs_ind (P : list byte -> Prop) :
  P [] ->
  (forall b, P [b]) ->
  (forall b0 b1 rest, P rest -> P (b0 :: b1 :: rest)) ->
  forall bs, P bs.
Proof.
  intros Hnil Hone Hpair bs.
  assert (H : P bs /\ forall b, P (b :: bs)).
  { induction bs as [|a bs [IH1 IH2]]; split; auto. }
  exact (proj1 H).
Qed.

Lemma read_shift2 b0 b1 rest i :
  0 <= i -> read (b0 :: b1 :: rest) (i + 2) = read rest i.
Proof.
  intros Hi. unfold read.
  destruct (i + 2 <? 0) eqn:E1; [lia|].
  destruct (i <? 0) eqn:E2; [lia|].
  replace (Z.to_nat (i + 2)) with (S (S (Z.to_nat i))) by lia.
  reflexivity.
Qed.

Lemma loop_bound_in_int bufferSize :
  0 <= bufferSize -> (bufferSize - 1 <? INT_MIN) = false.
Proof. intros Hn. apply Z.ltb_ge. unfold INT_MIN. lia. Qed.

Lemma checksum_loop_shift2 b0 b1 rest fuel :
  forall bufferSize i sum,
    0 <= i ->
    2 <= bufferSize ->
    checksum_loop fuel (b0 :: b1 :: rest) bufferSize (i + 2) sum
    = checksum_loop fuel rest (bufferSize - 2) i sum.
Proof.
  induction fuel as [|fuel IH]; intros n i sum Hi Hn; cbn [checksum_loop];
    rewrite !loop_bound_in_int by lia.
  - destruct (i + 2 <? n - 1) eqn:E1, (i <? n - 2 - 1) eqn:E2;
      try reflexivity; lia.
  - replace (i + 2 + 1) with (i + 1 + 2) by lia.
    rewrite !read_shift2 by lia.
    destruct (i + 2 <? n - 1) eqn:E1, (i <? n - 2 - 1) eqn:E2;
      try reflexivity; try lia.
    destruct (read rest i); [|reflexivity].
    destruct (read rest (i + 1)); [|reflexivity].
    apply (IH n (i + 2)); lia.
Qed.

Lemma checksum_tail_shift2 b0 b1 rest bufferSize sum :
  2 <= bufferSize ->
  checksum_tail (b0 :: b1 :: rest) bufferSize sum
  = checksum_tail rest (bufferSize - 2) sum.
Proof.
  intros Hn. unfold checksum_tail.
  assert (Hrem : Z.rem (bufferSize - 2) 2 = Z.rem bufferSize 2).
  { rewrite !Z.rem_mod_nonneg by lia.
    replace bufferSize with (bufferSize - 2 + 1 * 2) at 2 by lia.
    now rewrite Z.mod_add by lia. }
  rewrite Hrem.
  destruct (Z.rem bufferSize 2 =? 0) eqn:E; simpl; [reflexivity|].
  assert (bufferSize <> 2).
  { intros ->. rewrite Z.eqb_neq in E. now apply E. }
  replace (bufferSize - 1) with (bufferSize - 2 - 1 + 2) by lia.
  rewrite read_shift2 by lia. reflexivity.
Qed.

Lemma checksum_from_zero buffer fuel sum :
  checksum_from fuel buffer 0 0 sum = Some (int16 (Z.lnot sum)).
Proof. unfold checksum_from. destruct fuel; reflexivity. Qed.

Lemma checksum_from_one b rest fuel sum :
  checksum_from fuel (b :: rest) 1 0 sum
  = Some (int16 (Z.lnot (sum + 256 * byte_unsigned b))).
Proof.
  unfold checksum_from.
  replace (checksum_loop fuel (b :: rest) 1 0 sum) with (Some sum)
    by (destruct fuel; reflexivity).
  unfold checksum_tail.
  change (read (b :: rest) (1 - 1)) with (Some (char_val b)).
  change (negb (Z.rem 1 2 =? 0)) with true. cbv iota.
  rewrite high_byte_mask.
  f_equal. apply int16_congr.
  destruct (int16_decomp (256 * byte_unsigned b)) as [k1 ->].
  destruct (int16_decomp (sum + (256 * byte_unsigned b + 65536 * k1))) as [k2 ->].
  exists (- k1 - k2). rewrite !lnot_sub. lia.
Qed.

Lemma checksum_from_step b0 b1 rest fuel bufferSize sum :
  2 <= bufferSize ->
  checksum_from (S fuel) (b0 :: b1 :: rest) bufferSize 0 sum
  = checksum_from fuel rest (bufferSize - 2) 0
      (int16 (sum + int16 (256 * byte_unsigned b0 + byte_unsigned b1))).
Proof.
  intros Hn. unfold checksum_from. cbn [checksum_loop].
  rewrite loop_bound_in_int by lia.
  destruct (0 <? bufferSize - 1) eqn:E; [|lia].
  change (read (b0 :: b1 :: rest) 0) with (Some (char_val b0)).
  change (read (b0 :: b1 :: rest) (0 + 1)) with (Some (char_val b1)).
  cbv iota. rewrite high_byte_mask, low_byte_mask.
  rewrite checksum_loop_shift2 by lia.
  destruct (checksum_loop fuel rest (bufferSize - 2) 0 _); [|reflexivity].
  now rewrite checksum_tail_shift2 by lia.
Qed.

(** What [calculateChecksum] computes, by position. *)
Lemma checksum_from_wsum :
  forall buffer bufferSize sum fuel,
    0 <= bufferSize <= Z.of_nat (length buffer) ->
    bufferSize <= 2 * Z.of_nat fuel + 1 ->
    checksum_from fuel buffer bufferSize 0 sum
    = Some (int16 (Z.lnot (sum + wsum true (firstn (Z.to_nat bufferSize) buffer)))).
Proof.
  induction buffer as [| b | b0 b1 rest IH] using byte_pairs_ind;
    intros n sum fuel Hn Hfuel; simpl length in Hn.
  - assert (n = 0) as -> by lia.
    rewrite checksum_from_zero. simpl. now rewrite Z.add_0_r.
  - assert (n = 0 \/ n = 1) as [-> | ->] by lia.
    + rewrite checksum_from_zero. simpl. now rewrite Z.add_0_r.
    + rewrite checksum_from_one.
      change (firstn (Z.to_nat 1) [b]) with [b]. cbn [wsum].
      now rewrite Z.add_0_r.
  - assert (n = 0 \/ n = 1 \/ 2 <= n) as [-> | [-> | Hge]] by lia.
    + rewrite checksum_from_zero. simpl. now rewrite Z.add_0_r.
    + rewrite checksum_from_one.
      change (firstn (Z.to_nat 1) (b0 :: b1 :: rest)) with [b0]. cbn [wsum].
      now rewrite Z.add_0_r.
    + destruct fuel as [|fuel]; [lia|].
      rewrite checksum_from_step by lia.
      rewrite IH by lia.
      replace (Z.to_nat n) with (S (S (Z.to_nat (n - 2)))) by lia.
      cbn [firstn wsum negb].
      f_equal. apply int16_congr.
      set (w := 256 * byte_unsigned b0 + byte_unsigned b1).
      destruct (int16_decomp w) as [k1 ->].
      destruct (int16_decomp (sum + (w + 65536 * k1))) as [k2 ->].
      exists (- k1 - k2). rewrite !lnot_sub. subst w. lia.
Qed.

Lemma calculateChecksum_wsum buffer bufferSize :
  0 <= bufferSize <= Z.of_nat (length buffer) ->
  calculateChecksum buffer bufferSize
  = Some (int16 (Z.lnot (wsum true (firstn (Z.to_nat bufferSize) buffer)))).
Proof.
  intros Hn. unfold calculateChecksum.
  rewrite checksum_from_wsum by lia. reflexivity.
Qed.

(** The wrap-around sum of the big-endian words is the positional sum
    modulo 2^16. *)
Lemma fold_words_be bs :
  forall acc,
    fold_left (fun s w => (s + w) mod 65536) (words_be bs) (acc mod 65536)
    = (acc + wsum true bs) mod 65536.
Proof.
  induction bs as [| b | b0 b1 rest IH] using byte_pairs_ind; intros acc.
  - simpl. now rewrite Z.add_0_r.
  - cbn [words_be fold_left wsum]. rewrite Z.add_mod_idemp_l by lia.
    now rewrite Z.add_0_r.
  - cbn [words_be fold_left wsum negb]. rewrite Z.add_mod_idemp_l by lia.
    rewrite IH. f_equal. lia.
Qed.

Lemma sum16_words_be bs : sum16 (words_be bs) = wsum true bs mod 65536.
Proof.
  unfold sum16. change 0 with (0 mod 65536) at 1.
  now rewrite fold_words_be.
Qed.

Lemma complement16_sub s : 0 <= s < 65536 -> complement16 s = 65535 - s.
Proof.
  intros Hs. unfold complement16.
  assert (Hland : Z.land s (65535 - s) = 0).
  { apply Z.bits_inj'. intros n Hn. rewrite Z.land_spec, Z.bits_0.
    destruct (Z.ltb_spec n 16) as [Hlt | Hge].
    - replace (65535 - s) with (Z.lnot s + 1 * 2 ^ 16) by (rewrite lnot_sub; lia).
      replace (Z.testbit (Z.lnot s + 1 * 2 ^ 16) n)
        with (Z.testbit (Z.lnot s) n).
      + rewrite Z.lnot_spec by lia. now destruct (Z.testbit s n).
      + rewrite <- (Z.mod_pow2_bits_low (Z.lnot s + 1 * 2 ^ 16) 16 n) by lia.
        rewrite Z.mod_add by lia.
        now rewrite Z.mod_pow2_bits_low by lia.
    - replace (Z.testbit s n) with false; [reflexivity|].
      rewrite <- (Z.mod_small s (2 ^ 16)) by lia.
      now rewrite Z.mod_pow2_bits_high by lia. }
  assert (Hadd : s + (65535 - s) = Z.lxor s (65535 - s))
    by now apply Z.add_nocarry_lxor.
  replace (s + (65535 - s)) with 65535 in Hadd by lia.
  set (t := 65535 - s) in *.
  rewrite Hadd, <- Z.lxor_assoc, Z.lxor_nilpotent, Z.lxor_0_l. reflexivity.
Qed.

Lemma checksum_spec_range buffer n : 0 <= checksum_spec buffer n < 65536.
Proof.
  unfold checksum_spec. rewrite sum16_words_be.
  pose proof (Z.mod_pos_bound (wsum true (firstn n buffer)) 65536 ltac:(lia)).
  rewrite complement16_sub; lia.
Qed.

Lemma int16_checksum_spec buffer n :
  int16 (checksum_spec buffer n) = int16 (Z.lnot (wsum true (firstn n buffer))).
Proof.
  unfold checksum_spec. rewrite sum16_words_be.
  set (W := wsum true (firstn n buffer)).
  pose proof (Z.mod_pos_bound W 65536 ltac:(lia)).
  rewrite complement16_sub by lia.
  apply int16_congr. exists (1 + W / 65536).
  rewrite lnot_sub. pose proof (Z.div_mod W 65536 ltac:(lia)). lia.
Qed.

(** *** Corruption of one bit *)

Lemma flip_bit_delta b bit :
  (bit < 8)%nat ->
  0 < Z.abs (byte_unsigned (flip_bit b bit) - byte_unsigned b) <= 128.
Proof.
  intros Hbit.
  do 8 (destruct bit as [|bit]; [destruct b; vm_compute; intuition discriminate|]).
  lia.
Qed.

Lemma corrupt_length buffer idx bit :
  length (corrupt buffer idx bit) = length buffer.
Proof.
  revert idx. induction buffer as [|b rest IH]; intros [|idx]; simpl; auto.
Qed.

Lemma firstn_corrupt buffer :
  forall idx bit n, (idx < n)%nat ->
    firstn n (corrupt buffer idx bit) = corrupt (firstn n buffer) idx bit.
Proof.
  induction buffer as [|b rest IH]; intros idx bit n Hlt.
  - destruct n, idx; reflexivity.
  - destruct n as [|n]; [lia|]. destruct idx as [|idx]; simpl.
    + reflexivity.
    + f_equal. apply IH. lia.
Qed.

Lemma wsum_corrupt buffer :
  forall idx bit hi, (idx < length buffer)%nat -> (bit < 8)%nat ->
    exists d, wsum hi (corrupt buffer idx bit) = wsum hi buffer + d
              /\ 0 < Z.abs d < 65536.
Proof.
  induction buffer as [|b rest IH]; intros idx bit hi Hidx Hbit; simpl in Hidx.
  - lia.
  - destruct idx as [|idx]; cbn [corrupt wsum].
    + pose proof (flip_bit_delta b bit Hbit) as Hd.
      exists ((if hi then 256 else 1)
              * (byte_unsigned (flip_bit b bit) - byte_unsigned b)).
      split; [ring|]. destruct hi; lia.
    + destruct (IH idx bit (negb hi)) as [d [Hd Hr]]; [lia|assumption|].
      exists d. rewrite Hd. split; [ring|assumption].
Qed.

End ChecksumFacts.

Example checksum_ex1 :
  calculateChecksum [x01; x02; x03] 3 = Some (-1027).
Proof. reflexivity. Qed.

Example checksum_ex2 :
  calculateChecksum [xff; xff; x80] 3 = Some (-32768).
Proof. reflexivity. Qed.

(** C8.  For a buffer and a length within it, [calculateChecksum] returns
    the one's complement of the 16-bit wrap-around sum of the big-endian
    byte pairs, the last word padded with a zero byte when the length is
    odd: the returned [int16_t] is that 16-bit word read as a signed
    number, and its 16-bit pattern is that word.  Every such input gives a
    result, and length 0 gives the complement of zero. *)
Theorem calculateChecksum_meets_spec (buffer : list byte) (bufferSize : Z) :
  0 <= bufferSize <= Z.of_nat (length buffer) ->
  (exists c,
      calculateChecksum buffer bufferSize = Some c
      /\ c = int16 (checksum_spec buffer (Z.to_nat bufferSize))
      /\ c mod 65536 = checksum_spec buffer (Z.to_nat bufferSize))
  /\ calculateChecksum buffer 0 = Some (int16 (complement16 0)).
Proof.
  intros Hn. split.
  - exists (int16 (checksum_spec buffer (Z.to_nat bufferSize))).
    split; [|split].
    + rewrite calculateChecksum_wsum by assumption.
      now rewrite int16_checksum_spec.
    + reflexivity.
    + rewrite int16_mod. apply Z.mod_small, checksum_spec_range.
  - reflexivity.
Qed.

Lemma calculateChecksum_meets_spec_witness :
  0 <= 3 <= Z.of_nat (length [x01; x02; x03])
  /\ (exists c,
         calculateChecksum [x01; x02; x03] 3 = Some c
         /\ c = int16 (checksum_spec [x01; x02; x03] (Z.to_nat 3))
         /\ c mod 65536 = checksum_spec [x01; x02; x03] (Z.to_nat 3))
  /\ calculateChecksum [x01; x02; x03] 0 = Some (int16 (complement16 0)).
Proof.
  split; [simpl; lia|].
  apply (calculateChecksum_meets_spec [x01; x02; x03] 3). simpl; lia.
Defined.

(** C9.  Flipping any single bit of any byte among the first
    [bufferSize] bytes of a buffer changes the checksum computed over
    those bytes. *)
Theorem single_bit_flip_changes_checksum
        (buffer : list byte) (bufferSize : Z) (idx bit : nat) :
  0 <= bufferSize <= Z.of_nat (length buffer) ->
  Z.of_nat idx < bufferSize ->
  (bit < 8)%nat ->
  calculateChecksum (corrupt buffer idx bit) bufferSize
  <> calculateChecksum buffer bufferSize.
Proof.
  intros Hn Hidx Hbit.
  rewrite !calculateChecksum_wsum by (rewrite ?corrupt_length; assumption).
  rewrite firstn_corrupt by lia.
  destruct (wsum_corrupt (firstn (Z.to_nat bufferSize) buffer) idx bit true)
    as [d [Hd Hr]]; [rewrite length_firstn; lia | assumption |].
  rewrite Hd. intros Heq. injection Heq as Heq.
  apply int16_inj_mod in Heq. destruct Heq as [k Hk].
  rewrite !lnot_sub in Hk. lia.
Qed.

Lemma single_bit_flip_changes_checksum_witness :
  calculateChecksum (corrupt [x01; x02; x03] 2 7) 3
  <> calculateChecksum [x01; x02; x03] 3.
Proof.
  apply (single_bit_flip_changes_checksum [x01; x02; x03] 3 2 7);
    simpl; lia.
Defined.

(* ------------------------------------------------------------------ *)
(** ** The receiver *)

Section ReceiverFacts.

Variable packetLossProb : float.

Lemma payload_checksum_defined (payload : list byte) :
  exists c, calculateChecksum payload (Z.of_nat (length payload)) = Some c.
Proof. eexists. apply calculateChecksum_wsum. lia. Qed.

(** The body of the loop, case by case. *)
Lemma loop_body_datagram st pkt rand :
  loop_body packetLossProb st (Datagram pkt) rand =
    if negb (is_data pkt) then Exit st
    else if negb (checksum_ok pkt) then Continue st
    else if simulated_loss packetLossProb rand then Continue st
    else if seqNum (hdr pkt) =? expectedSeqNum st then
      if expectedSeqNum st =? INT_MAX then Undefined
      else end_of_body (Z.of_nat (length (data pkt))) (accept st pkt)
    else end_of_body (Z.of_nat (length (data pkt))) (reack st).
Proof.
  unfold loop_body, is_data, checksum_ok.
  assert (H0 : (0 <? sizeof_Header + Z.of_nat (length (data pkt))) = true)
    by (apply Z.ltb_lt; unfold sizeof_Header; lia).
  rewrite H0. cbn [andb].
  replace (sizeof_Header + Z.of_nat (length (data pkt)) - sizeof_Header)
    with (Z.of_nat (length (data pkt))) by lia.
  destruct (type (hdr pkt) =? DATA_PKT); cbn [negb]; [|reflexivity].
  destruct (payload_checksum_defined (data pkt)) as [c ->].
  destruct (c =? checksum (hdr pkt)); cbn [negb]; [|reflexivity].
  destruct (simulated_loss packetLossProb rand); [reflexivity|].
  destruct (seqNum (hdr pkt) =? expectedSeqNum st); reflexivity.
Qed.

Lemma end_of_body_session n st : session_of (end_of_body n st) = Some st.
Proof. unfold end_of_body. now destruct (n =? 0). Qed.


Lemma end_of_body_continue n st st' :
  end_of_body n st = Continue st' <-> n <> 0 /\ st' = st.
Proof.
  unfold end_of_body. destruct (Z.eqb_spec n 0); split.
  - discriminate.
  - intros [? _]. contradiction.
  - intros [= ->]. auto.
  - intros [_ ->]. reflexivity.
Qed.

Lemma app_one_neq {A} (l : list A) (a : A) : l ++ [a] <> l.
Proof.
  intros H. apply (f_equal (@length A)) in H.
  rewrite length_app in H. simpl in H. lia.
Qed.

Lemma accept_neq st pkt : accept st pkt <> st.
Proof.
  intros H. apply (f_equal sent) in H. simpl in H.
  now apply app_one_neq in H.
Qed.

Lemma reack_neq st : reack st <> st.
Proof.
  intros H. apply (f_equal sent) in H. simpl in H.
  now apply app_one_neq in H.
Qed.

(** One step of the loop, by the session it leaves. *)
Lemma loop_body_session st received rand st' :
  session_of (loop_body packetLossProb st received rand) = Some st' ->
  st' = st
  \/ (exists pkt, received = Datagram pkt
                  /\ seqNum (hdr pkt) = expectedSeqNum st
                  /\ expectedSeqNum st <> INT_MAX
                  /\ st' = accept st pkt)
  \/ (exists pkt, received = Datagram pkt
                  /\ seqNum (hdr pkt) <> expectedSeqNum st
                  /\ st' = reack st).
Proof.
  destruct received as [|pkt].
  - simpl. intros [= <-]. now left.
  - rewrite loop_body_datagram.
    destruct (negb (is_data pkt)); [intros [= <-]; now left|].
    destruct (negb (checksum_ok pkt)); [intros [= <-]; now left|].
    destruct (simulated_loss packetLossProb rand); [intros [= <-]; now left|].
    destruct (Z.eqb_spec (seqNum (hdr pkt)) (expectedSeqNum st)) as [Heq|Hne].
    + destruct (Z.eqb_spec (expectedSeqNum st) INT_MAX); [discriminate|].
      rewrite end_of_body_session. intros [= <-].
      right; left. exists pkt. auto.
    + rewrite end_of_body_session. intros [= <-].
      right; right. exists pkt. auto.
Qed.

Lemma session_inv_initial : session_inv initial.
Proof. repeat split. Qed.

Lemma session_inv_accept st pkt :
  session_inv st -> seqNum (hdr pkt) = expectedSeqNum st ->
  session_inv (accept st pkt).
Proof.
  intros (Hlast & Hexp & Hseq & Hfile) Hin.
  unfold session_inv, accept; simpl.
  rewrite !length_app, !map_app, concat_app, seq_app, map_app. simpl.
  rewrite Hin, Hseq, Hfile, Hexp, app_nil_r.
  repeat split; lia.
Qed.

Lemma session_inv_reack st : session_inv st -> session_inv (reack st).
Proof. intros H. exact H. Qed.

Lemma session_inv_step st received rand st' :
  session_inv st ->
  session_of (loop_body packetLossProb st received rand) = Some st' ->
  session_inv st'.
Proof.
  intros Hinv Hstep.
  destruct (loop_body_session _ _ _ _ Hstep) as [Hsame | [Hacc | Hre]].
  - now subst st'.
  - destruct Hacc as (pkt & _ & Hin & _ & Hst). subst st'.
    now apply session_inv_accept.
  - destruct Hre as (pkt & _ & _ & Hst). subst st'.
    now apply session_inv_reack.
Qed.

Lemma session_inv_loop arrivals :
  forall st st',
    session_inv st ->
    session_of (receive_loop packetLossProb st arrivals) = Some st' ->
    session_inv st'.
Proof.
  induction arrivals as [|[received rand] rest IH]; intros st st' Hinv Hrun.
  - simpl in Hrun. injection Hrun as <-. assumption.
  - simpl in Hrun.
    destruct (loop_body packetLossProb st received rand) as [st1|st1|st1|] eqn:E.
    + apply (IH st1); [|assumption].
      apply (session_inv_step st received rand); [assumption|now rewrite E].
    + injection Hrun as <-.
      apply (session_inv_step st received rand); [assumption|now rewrite E].
    + injection Hrun as <-.
      apply (session_inv_step st received rand); [assumption|now rewrite E].
    + discriminate.
Qed.

Lemma reachable_inv st : reachable packetLossProb st -> session_inv st.
Proof.
  intros [arrivals Hrun].
  apply (session_inv_loop arrivals initial); [apply session_inv_initial|].
  now rewrite Hrun.
Qed.

Lemma last_counting n :
  last (map Z.of_nat (seq 0 n)) INVALID_SEQ_NO = Z.of_nat n - 1.
Proof.
  destruct n as [|n]; [reflexivity|].
  rewrite seq_S, map_app. cbn [map]. rewrite last_last. lia.
Qed.

Lemma session_inv_last_accepted st :
  session_inv st -> lastSeqNum st = last_accepted st.
Proof.
  intros (Hlast & Hexp & Hseq & _). unfold last_accepted.
  rewrite Hseq, last_counting. lia.
Qed.

(** The loop only stops being defined when the counter would overflow,
    which takes [INT_MAX] accepted packets. *)
Lemma receive_loop_counts arrivals :
  forall st st',
    session_of (receive_loop packetLossProb st arrivals) = Some st' ->
    expectedSeqNum st' <= expectedSeqNum st + Z.of_nat (length arrivals).
Proof.
  induction arrivals as [|[received rand] rest IH]; intros st st' Hrun.
  - simpl in Hrun. injection Hrun as <-. simpl. lia.
  - cbn [receive_loop] in Hrun. cbn [length].
    assert (Hstep : forall st1,
               session_of (loop_body packetLossProb st received rand) = Some st1 ->
               expectedSeqNum st1 <= expectedSeqNum st + 1).
    { intros st1 H1.
      destruct (loop_body_session _ _ _ _ H1) as [Hsame | [Hacc | Hre]].
      - subst st1. lia.
      - destruct Hacc as (pkt & _ & _ & _ & ->). simpl. lia.
      - destruct Hre as (pkt & _ & _ & ->). simpl. lia. }
    destruct (loop_body packetLossProb st received rand) as [st1|st1|st1|] eqn:E.
    + specialize (IH _ _ Hrun). specialize (Hstep st1 eq_refl). lia.
    + injection Hrun as <-. specialize (Hstep st1 eq_refl). lia.
    + injection Hrun as <-. specialize (Hstep st1 eq_refl). lia.
    + discriminate.
Qed.

Lemma loop_body_undefined st received rand :
  loop_body packetLossProb st received rand = Undefined ->
  expectedSeqNum st = INT_MAX.
Proof.
  destruct received as [|pkt]; [discriminate|].
  rewrite loop_body_datagram.
  destruct (negb (is_data pkt)); [discriminate|].
  destruct (negb (checksum_ok pkt)); [discriminate|].
  destruct (simulated_loss packetLossProb rand); [discriminate|].
  destruct (seqNum (hdr pkt) =? expectedSeqNum st).
  - destruct (Z.eqb_spec (expectedSeqNum st) INT_MAX); [auto|].
    unfold end_of_body. destruct (_ =? 0); discriminate.
  - unfold end_of_body. destruct (_ =? 0); discriminate.
Qed.

Lemma receive_loop_defined arrivals :
  forall st,
    expectedSeqNum st + Z.of_nat (length arrivals) <= INT_MAX ->
    receive_loop packetLossProb st arrivals <> Undefined.
Proof.
  induction arrivals as [|[received rand] rest IH]; intros st Hlen.
  - discriminate.
  - cbn [receive_loop]. cbn [length] in Hlen.
    destruct (loop_body packetLossProb st received rand) as [st1|st1|st1|] eqn:E;
      try discriminate.
    + apply IH.
      assert (H1 : session_of (loop_body packetLossProb st received rand) = Some st1)
        by now rewrite E.
      pose proof (receive_loop_counts [(received, rand)] st st1) as Hc.
      cbn [receive_loop] in Hc. rewrite E in Hc. specialize (Hc eq_refl).
      simpl in Hc. lia.
    + apply loop_body_undefined in E. lia.
Qed.

Lemma counting_sorted n :
  forall a, StronglySorted Z.lt (map Z.of_nat (seq a n)).
Proof.
  induction n as [|n IH]; intros a; simpl; constructor.
  - apply IH.
  - apply Forall_forall. intros z Hz.
    apply in_map_iff in Hz. destruct Hz as (k & <- & Hk).
    apply in_seq in Hk. lia.
Qed.


Lemma zero_loss_draw :
  forall r, 0 <= r < 100 -> simulated_loss 0%float r = (r =? 0).
Proof.
  intros r Hr.
  assert (Hall : forallb (fun n => Bool.eqb (simulated_loss 0%float (Z.of_nat n))
                                             (Z.of_nat n =? 0))
                         (seq 0 100) = true) by (vm_compute; reflexivity).
  rewrite forallb_forall in Hall.
  specialize (Hall (Z.to_nat r)). rewrite Z2Nat.id in Hall by lia.
  apply Bool.eqb_prop, Hall, in_seq. lia.
Qed.

End ReceiverFacts.

(** C7.  A DATA packet whose recomputed checksum differs from the
    checksum field of its header is dropped: the iteration ends with
    [continue] in the session it started in, so no acknowledgement has
    been sent, nothing has been written, and [expectedSeqNum] and
    [lastSeqNum] are unchanged. *)
Theorem checksum_mismatch_is_dropped
        (packetLossProb : float) (st : Session) (pkt : Packet) (rand : Z) :
  is_data pkt = true ->
  checksum_ok pkt = false ->
  loop_body packetLossProb st (Datagram pkt) rand = Continue st.
Proof.
  intros Hdata Hsum. rewrite loop_body_datagram, Hdata, Hsum. reflexivity.
Qed.

Lemma checksum_mismatch_is_dropped_witness :
  loop_body 0%float initial (Datagram damaged_packet) 50 = Continue initial.
Proof.
  apply (checksum_mismatch_is_dropped 0%float initial damaged_packet 50);
    reflexivity.
Defined.

(** C5, as stated, fails.  A DATA packet whose sequence number differs
    from [expectedSeqNum] is not always answered: with loss probability
    0.5 and a draw of 10 the well-formed packet 5, sent to a receiver that
    expects packet 0, is dropped by the loss draw; and once packet 0 has
    been accepted, a packet with sequence number 0 and a wrong checksum
    field is dropped by the checksum check.  In both cases no
    acknowledgement is sent. *)
Lemma dropped_out_of_sequence_packet_is_not_acknowledged :
  (is_data later_packet = true
   /\ seqNum (hdr later_packet) <> expectedSeqNum initial
   /\ loop_body 0.5%float initial (Datagram later_packet) 10 = Continue initial
   /\ ~ AsStated.reacknowledged_when_out_of_sequence
         0.5%float initial later_packet 10)
  /\ (is_data damaged_packet = true
      /\ seqNum (hdr damaged_packet) <> expectedSeqNum (accept initial first_packet)
      /\ loop_body 0%float (accept initial first_packet) (Datagram damaged_packet) 50
         = Continue (accept initial first_packet)
      /\ ~ AsStated.reacknowledged_when_out_of_sequence
            0%float (accept initial first_packet) damaged_packet 50).
Proof.
  assert (Hlost : loop_body 0.5%float initial (Datagram later_packet) 10
                  = Continue initial) by (vm_compute; reflexivity).
  assert (Hbad : loop_body 0%float (accept initial first_packet)
                           (Datagram damaged_packet) 50
                 = Continue (accept initial first_packet))
    by (vm_compute; reflexivity).
  split; (split; [reflexivity|]); (split; [simpl; lia|]).
  - split; [exact Hlost|].
    intros H. destruct H as (st' & Hstep & Hsent & _); [reflexivity|simpl; lia|].
    rewrite Hlost in Hstep. injection Hstep as <-.
    symmetry in Hsent. now apply app_one_neq in Hsent.
  - split; [exact Hbad|].
    intros H. destruct H as (st' & Hstep & Hsent & _); [reflexivity|simpl; lia|].
    rewrite Hbad in Hstep. injection Hstep as <-.
    symmetry in Hsent. now apply app_one_neq in Hsent.
Qed.

(** C5, amended.  A DATA packet that passes the checksum check and the
    loss draw and whose sequence number differs from [expectedSeqNum]
    makes the receiver send exactly one acknowledgement, whose sequence
    number field is [lastSeqNum]; the file, the write history,
    [expectedSeqNum] and [lastSeqNum] stay as they were.  In a session
    reached from the initial one in which nothing has been accepted, the
    field is [INVALID_SEQ_NO]. *)
Theorem out_of_sequence_is_reacknowledged
        (packetLossProb : float) (st : Session) (pkt : Packet) (rand : Z) :
  is_data pkt = true ->
  checksum_ok pkt = true ->
  simulated_loss packetLossProb rand = false ->
  seqNum (hdr pkt) <> expectedSeqNum st ->
  exists st',
    session_of (loop_body packetLossProb st (Datagram pkt) rand) = Some st'
    /\ sent st'
       = sent st ++ [{| seqNum := lastSeqNum st; checksum := 0; type := int16 ACK_PKT |}]
    /\ file st' = file st
    /\ writes st' = writes st
    /\ expectedSeqNum st' = expectedSeqNum st
    /\ lastSeqNum st' = lastSeqNum st
    /\ (reachable packetLossProb st -> writes st = [] ->
        sent st'
        = sent st
          ++ [{| seqNum := INVALID_SEQ_NO; checksum := 0; type := int16 ACK_PKT |}]).
Proof.
  intros Hdata Hsum Hloss Hseq.
  exists (reack st).
  rewrite loop_body_datagram, Hdata, Hsum, Hloss. cbn [negb].
  destruct (Z.eqb_spec (seqNum (hdr pkt)) (expectedSeqNum st)); [contradiction|].
  rewrite end_of_body_session.
  repeat split.
  intros Hreach Hnone.
  destruct (reachable_inv _ _ Hreach) as (Hlast & Hexp & _).
  rewrite Hnone in Hexp. simpl in Hexp.
  assert (lastSeqNum st = INVALID_SEQ_NO) as Hinvalid
      by (unfold INVALID_SEQ_NO; lia).
  cbn [reack sent]. unfold ack_for. now rewrite Hinvalid.
Qed.

Lemma out_of_sequence_is_reacknowledged_witness :
  exists st',
    session_of (loop_body 0%float (accept initial first_packet)
                          (Datagram later_packet) 50) = Some st'
    /\ sent st'
       = sent (accept initial first_packet)
         ++ [{| seqNum := lastSeqNum (accept initial first_packet);
                checksum := 0; type := int16 ACK_PKT |}]
    /\ file st' = file (accept initial first_packet)
    /\ writes st' = writes (accept initial first_packet)
    /\ expectedSeqNum st' = expectedSeqNum (accept initial first_packet)
    /\ lastSeqNum st' = lastSeqNum (accept initial first_packet)
    /\ (reachable 0%float (accept initial first_packet) ->
        writes (accept initial first_packet) = [] ->
        sent st'
        = sent (accept initial first_packet)
          ++ [{| seqNum := INVALID_SEQ_NO; checksum := 0; type := int16 ACK_PKT |}]).
Proof.
  apply (out_of_sequence_is_reacknowledged
           0%float (accept initial first_packet) later_packet 50);
    [reflexivity | reflexivity | vm_compute; reflexivity | simpl; lia].
Defined.

(** C6.  Payload is written only in sequence.  In one iteration, a write
    happens only for a packet whose sequence number equals
    [expectedSeqNum]; the write appends exactly that packet's payload and
    [expectedSeqNum] grows by one.  Over a whole run from the initial
    session, the sequence numbers of the writes are 0, 1, 2, ... in that
    order (strictly increasing), [expectedSeqNum] is their count, and the
    file is the concatenation of the written payloads in that order. *)
Theorem writes_are_in_sequence (packetLossProb : float) :
  (forall st received rand st',
      session_of (loop_body packetLossProb st received rand) = Some st' ->
      writes st' <> writes st ->
      exists pkt,
        received = Datagram pkt
        /\ seqNum (hdr pkt) = expectedSeqNum st
        /\ expectedSeqNum st' = expectedSeqNum st + 1
        /\ writes st' = writes st ++ [(expectedSeqNum st, data pkt)]
        /\ file st' = file st ++ data pkt)
  /\ (forall arrivals st',
         session_of (receive_loop packetLossProb initial arrivals) = Some st' ->
         map fst (writes st') = map Z.of_nat (seq 0 (length (writes st')))
         /\ StronglySorted Z.lt (map fst (writes st'))
         /\ expectedSeqNum st' = Z.of_nat (length (writes st'))
         /\ file st' = concat (map snd (writes st'))).
Proof.
  split.
  - intros st received rand st' Hstep Hw.
    destruct (loop_body_session _ _ _ _ _ Hstep) as [Hsame | [Hacc | Hre]].
    + subst st'. contradiction.
    + destruct Hacc as (pkt & -> & Hin & _ & ->).
      exists pkt. simpl. rewrite Hin. repeat split.
    + destruct Hre as (pkt & _ & _ & ->). simpl in Hw. contradiction.
  - intros arrivals st' Hrun.
    destruct (session_inv_loop packetLossProb arrivals initial st'
                               session_inv_initial Hrun)
      as (_ & Hexp & Hseq & Hfile).
    repeat split; try assumption.
    rewrite Hseq. apply counting_sorted.
Qed.

(** C10.  In every session the run from the initial one can be in,
    [lastSeqNum = expectedSeqNum - 1]; it is [INVALID_SEQ_NO] exactly
    when no packet has been accepted, and otherwise the sequence number
    of the packet accepted last.  Every iteration from such a session
    sends at most one acknowledgement, and the sequence number field of
    an acknowledgement it sends is the sequence number of the packet
    accepted last at that point ([INVALID_SEQ_NO] if none).  The run
    itself is defined as long as fewer than [INT_MAX] datagrams have
    arrived. *)
Theorem last_is_expected_minus_one
        (packetLossProb : float) (arrivals : list (Received * Z)) (st : Session) :
  session_of (receive_loop packetLossProb initial arrivals) = Some st ->
  lastSeqNum st = expectedSeqNum st - 1
  /\ (lastSeqNum st = INVALID_SEQ_NO <-> writes st = [])
  /\ lastSeqNum st = last_accepted st
  /\ (forall received rand st',
         session_of (loop_body packetLossProb st received rand) = Some st' ->
         lastSeqNum st' = expectedSeqNum st' - 1
         /\ (sent st' = sent st
             \/ sent st'
                = sent st ++ [{| seqNum := last_accepted st';
                                 checksum := 0;
                                 type := int16 ACK_PKT |}]))
  /\ (Z.of_nat (length arrivals) <= INT_MAX ->
      receive_loop packetLossProb initial arrivals <> Undefined).
Proof.
  intros Hrun.
  pose proof (session_inv_loop packetLossProb arrivals initial st
                               session_inv_initial Hrun) as Hinv.
  pose proof Hinv as (Hlast & Hexp & Hseq & Hfile).
  split; [assumption|]. split; [|split; [|split]].
  - unfold INVALID_SEQ_NO. split.
    + intros H. apply length_zero_iff_nil. lia.
    + intros H. rewrite H in Hexp. simpl in Hexp. lia.
  - now apply session_inv_last_accepted.
  - intros received rand st' Hstep.
    pose proof (session_inv_step packetLossProb _ _ _ _ Hinv Hstep) as Hinv'.
    split; [apply Hinv'|].
    destruct (loop_body_session _ _ _ _ _ Hstep) as [Hsame | [Hacc | Hre]].
    + left. now subst st'.
    + right. rewrite <- (session_inv_last_accepted st' Hinv').
      destruct Hacc as (pkt & _ & _ & _ & ->). reflexivity.
    + right. rewrite <- (session_inv_last_accepted st' Hinv').
      destruct Hre as (pkt & _ & _ & ->). reflexivity.
  - intros Hlen. apply receive_loop_defined. simpl. lia.
Qed.

Lemma last_is_expected_minus_one_witness :
  lastSeqNum (accept initial first_packet)
  = expectedSeqNum (accept initial first_packet) - 1
  /\ (lastSeqNum (accept initial first_packet) = INVALID_SEQ_NO
      <-> writes (accept initial first_packet) = [])
  /\ lastSeqNum (accept initial first_packet)
     = last_accepted (accept initial first_packet)
  /\ (forall received rand st',
         session_of (loop_body 0%float (accept initial first_packet) received rand)
         = Some st' ->
         lastSeqNum st' = expectedSeqNum st' - 1
         /\ (sent st' = sent (accept initial first_packet)
             \/ sent st'
                = sent (accept initial first_packet)
                  ++ [{| seqNum := last_accepted st';
                         checksum := 0;
                         type := int16 ACK_PKT |}]))
  /\ (Z.of_nat (length [(Datagram first_packet, 50)]) <= INT_MAX ->
      receive_loop 0%float initial [(Datagram first_packet, 50)] <> Undefined).
Proof.
  apply (last_is_expected_minus_one
           0%float [(Datagram first_packet, 50)] (accept initial first_packet)).
  vm_compute. reflexivity.
Defined.



(** C4, the failing input.  With loss probability 0 and a draw of 0 the
    well-formed, in-sequence first packet is dropped, although 0 is not
    strictly below 0 * 100. *)
Lemma zero_draw_is_dropped_at_zero_loss :
  is_data first_packet = true
  /\ checksum_ok first_packet = true
  /\ loop_body 0%float initial (Datagram first_packet) 0 = Continue initial
  /\ PrimFloat.ltb (double_of_int (Z.rem 0 100)) (PrimFloat.mul 0%float 100%float)
     = false
  /\ ~ AsStated.dropped_when_below 0%float initial first_packet 0.
Proof.
  assert (Hdrop : loop_body 0%float initial (Datagram first_packet) 0
                  = Continue initial) by (vm_compute; reflexivity).
  assert (Hlt : PrimFloat.ltb (double_of_int (Z.rem 0 100))
                              (PrimFloat.mul 0%float 100%float) = false)
    by (vm_compute; reflexivity).
  repeat split; try assumption.
  intros [Himp _]. specialize (Himp Hdrop). rewrite Hlt in Himp. discriminate.
Qed.

(** C4.  What the loss draw of the code does.  A checksum-valid DATA
    packet is dropped (the iteration continues in an unchanged session,
    without acknowledgement) exactly when the draw [rand() % 100],
    divided by 100, is less than or equal to the loss probability, where
    the description drops it when the draw is strictly below.  With loss
    probability 0 the code drops exactly the packets whose draw is 0, one
    draw in a hundred, and not none. *)
Theorem dropped_when_draw_is_at_most_probability
        (packetLossProb : float) (st : Session) (pkt : Packet) (rand : Z) :
  is_data pkt = true ->
  checksum_ok pkt = true ->
  (loop_body packetLossProb st (Datagram pkt) rand = Continue st
   <->
   PrimFloat.leb (PrimFloat.div (double_of_int (Z.rem rand 100)) 100%float)
                 packetLossProb = true)
  /\ (0 <= rand ->
      (loop_body 0%float st (Datagram pkt) rand = Continue st
       <-> Z.rem rand 100 = 0)).
Proof.
  intros Hdata Hsum.
  assert (Hrule : forall p,
             loop_body p st (Datagram pkt) rand = Continue st
             <-> simulated_loss p rand = true).
  { intros p. rewrite loop_body_datagram, Hdata, Hsum. cbn [negb].
    destruct (simulated_loss p rand); [tauto|].
    split; [|discriminate]. intros H. exfalso.
    destruct (seqNum (hdr pkt) =? expectedSeqNum st).
    - destruct (expectedSeqNum st =? INT_MAX); [discriminate|].
      apply end_of_body_continue in H. destruct H as [_ H].
      symmetry in H. now apply accept_neq in H.
    - apply end_of_body_continue in H. destruct H as [_ H].
      symmetry in H. now apply reack_neq in H. }
  split.
  - apply Hrule.
  - intros Hrand. rewrite Hrule.
    assert (Hr : 0 <= Z.rem rand 100 < 100)
      by (rewrite Z.rem_mod_nonneg by lia; apply Z.mod_pos_bound; lia).
    assert (Hsame : simulated_loss 0%float rand
                    = simulated_loss 0%float (Z.rem rand 100)).
    { unfold simulated_loss. now rewrite (Z.rem_small (Z.rem rand 100)) by lia. }
    rewrite Hsame, zero_loss_draw by assumption.
    apply Z.eqb_eq.
Qed.

Lemma dropped_when_draw_is_at_most_probability_witness :
  (loop_body 0.5%float initial (Datagram first_packet) 250 = Continue initial
   <->
   PrimFloat.leb (PrimFloat.div (double_of_int (Z.rem 250 100)) 100%float)
                 0.5%float = true)
  /\ (0 <= 250 ->
      (loop_body 0%float initial (Datagram first_packet) 250 = Continue initial
       <-> Z.rem 250 100 = 0)).
Proof.
  apply (dropped_when_draw_is_at_most_probability 0.5%float initial first_packet 250);
    reflexivity.
Defined.

(* ------------------------------------------------------------------ *)
(** ** The sender *)

Section SenderFacts.

Lemma strncpy_length src :
  forall n out, strncpy src n = Some out -> length out = n.
Proof.
  induction src as [|c src IH]; intros [|n] out H; simpl in H;
    try discriminate; try (injection H as <-; reflexivity).
  destruct (Byte.eqb c x00).
  - injection H as <-. simpl. now rewrite repeat_length.
  - destruct (strncpy src n) as [out'|] eqn:E; [|discriminate].
    injection H as <-. simpl. f_equal. now apply IH.
Qed.

(** Without a NUL byte among the first [n] bytes, [strncpy] copies them. *)
Lemma strncpy_without_nul src :
  forall n, (n <= length src)%nat ->
            ~ In x00 (firstn n src) ->
            strncpy src n = Some (firstn n src).
Proof.
  induction src as [|c src IH]; intros [|n] Hlen Hnul; simpl in *;
    try reflexivity; try lia.
  destruct (Byte.eqb c x00) eqn:E.
  - apply Byte.byte_dec_bl in E. exfalso. apply Hnul. now left.
  - rewrite IH; [reflexivity | lia | tauto].
Qed.

(** From the first NUL byte on, [strncpy] stores NULs. *)
Lemma strncpy_after_nul before after n :
  ~ In x00 before ->
  (length before < n)%nat ->
  strncpy (before ++ x00 :: after) n
  = Some (before ++ repeat x00 (n - length before)).
Proof.
  revert n. induction before as [|c before IH]; intros n Hnul Hlen.
  - destruct n as [|n]; [simpl in Hlen; lia|]. reflexivity.
  - destruct n as [|n]; [simpl in Hlen; lia|]. simpl.
    destruct (Byte.eqb c x00) eqn:E.
    + apply Byte.byte_dec_bl in E. exfalso. apply Hnul. now left.
    + rewrite IH; [reflexivity | | simpl in Hlen; lia].
      intros Hin. apply Hnul. now right.
Qed.

(** A segment without NUL bytes is framed as it is, with the checksum
    of its bytes. *)
Lemma frame_without_nul segmentNum buffer bufferSize :
  0 <= bufferSize < MAX_MSS ->
  bufferSize <= Z.of_nat (length buffer) ->
  ~ In x00 (firstn (Z.to_nat bufferSize) buffer) ->
  exists cksum,
    calculateChecksum (firstn (Z.to_nat bufferSize) buffer) bufferSize = Some cksum
    /\ frame segmentNum buffer bufferSize
       = Some {| hdr := {| seqNum := segmentNum; checksum := cksum; type := DATA_PKT |};
                 data := firstn (Z.to_nat bufferSize) buffer |}.
Proof.
  intros Hn Hlen Hnul. unfold frame.
  destruct (Z.ltb_spec bufferSize 0); [lia|].
  destruct (Z.leb_spec MAX_MSS bufferSize); [lia|]. cbn [orb].
  rewrite strncpy_without_nul by (assumption || lia).
  assert (Hdef : 0 <= bufferSize
                 <= Z.of_nat (length (firstn (Z.to_nat bufferSize) buffer)))
    by (rewrite length_firstn; lia).
  rewrite (calculateChecksum_wsum _ _ Hdef).
  eexists. split; reflexivity.
Qed.

(** A server that answers nothing keeps the sender retransmitting. *)
Lemma await_ack_no_reply (Net : Type) (exchange : Net -> nat -> Packet -> Net * Reply)
      (net : Net) (serverNum : nat) (packet : Packet) (segmentNum : Z) :
  exchange net serverNum packet = (net, NoReply) ->
  forall retries,
    await_ack Net exchange retries net serverNum packet segmentNum = None.
Proof.
  intros Hquiet retries. induction retries as [|retries IH]; simpl.
  - reflexivity.
  - rewrite Hquiet. exact IH.
Qed.

Lemma to_size_t_small z : 0 <= z < 18446744073709551616 -> to_size_t z = z.
Proof. intros H. unfold to_size_t. now apply Z.mod_small. Qed.

Lemma to_int_small z : INT_MIN <= z <= INT_MAX -> to_int z = z.
Proof.
  unfold INT_MIN, INT_MAX, to_int. intros H. rewrite Z.mod_small; lia.
Qed.

Lemma strncpy_defined src :
  forall n, (n <= length src)%nat -> exists out, strncpy src n = Some out.
Proof.
  induction src as [|c src IH]; intros [|n] Hlen; simpl in *;
    try (eexists; reflexivity); try lia.
  destruct (Byte.eqb c x00); [eexists; reflexivity|].
  destruct (IH n) as [out ->]; [lia|]. eexists. reflexivity.
Qed.

(** [strncpy] does not look beyond the first [n] bytes of its source. *)
Lemma strncpy_app segment rest :
  strncpy (segment ++ rest) (length segment) = strncpy segment (length segment).
Proof.
  induction segment as [|c segment IH]; simpl.
  - reflexivity.
  - destruct (Byte.eqb c x00); [reflexivity|]. now rewrite IH.
Qed.

Lemma wire_payload_length segment : length (wire_payload segment) = length segment.
Proof.
  unfold wire_payload.
  destruct (strncpy segment (length segment)) as [out|] eqn:E; [|reflexivity].
  now apply strncpy_length in E.
Qed.

(** What [sendPacket] frames depends on the segment alone. *)
Lemma frame_segment seq segment rest :
  Z.of_nat (length segment) < MAX_MSS ->
  frame seq (segment ++ rest) (Z.of_nat (length segment))
  = Some (data_packet seq segment).
Proof.
  intros Hlen. unfold frame.
  destruct (Z.ltb_spec (Z.of_nat (length segment)) 0); [lia|].
  destruct (Z.leb_spec MAX_MSS (Z.of_nat (length segment))); [lia|]. cbn [orb].
  rewrite Nat2Z.id, strncpy_app.
  destruct (strncpy_defined segment (length segment) (le_n _)) as [out Hout].
  assert (Hwire : wire_payload segment = out)
    by (unfold wire_payload; now rewrite Hout).
  rewrite Hout.
  assert (Hlo : length out = length segment) by now apply strncpy_length in Hout.
  rewrite calculateChecksum_wsum by lia.
  unfold data_packet. rewrite Hwire, int16_checksum_spec, Nat2Z.id.
  reflexivity.
Qed.

Lemma file_segments_concat count mss :
  forall unread, concat (file_segments count mss unread) = unread.
Proof.
  induction count as [|count IH]; intros unread; simpl.
  - apply app_nil_r.
  - rewrite IH. apply firstn_skipn.
Qed.

Lemma file_segments_length count mss unread :
  length (file_segments count mss unread) = S count.
Proof.
  revert unread. induction count as [|count IH]; intros unread; simpl; auto.
Qed.

Lemma file_segments_last count mss :
  forall unread,
    (count * mss <= length unread)%nat ->
    length (last (file_segments count mss unread) []) = (length unread - count * mss)%nat.
Proof.
  induction count as [|count IH]; intros unread Hlen.
  - simpl. lia.
  - cbn [file_segments].
    destruct (file_segments count mss (skipn mss unread)) eqn:E.
    + pose proof (file_segments_length count mss (skipn mss unread)) as Hl.
      rewrite E in Hl. discriminate.
    + change (last (firstn mss unread :: l :: l0) [])
        with (last (l :: l0) (@nil byte)).
      rewrite <- E, IH; rewrite length_skipn; simpl in Hlen; lia.
Qed.

Section Recording.

Variables (retries : nat) (fileLength mss : Z).
Hypothesis mss_range : 0 < mss < MAX_MSS.
Hypothesis fileLength_range : 0 <= fileLength < INT_MAX.

(** One call of [sendPacket] on the recording link to one server. *)
Lemma sendPacket_recorded log seq segment rest :
  Z.of_nat (length segment) < MAX_MSS ->
  sendPacket Recorded acknowledge_all (S retries) 1 log seq (segment ++ rest)
             (Z.of_nat (length segment))
  = Done (log ++ [(0%nat, data_packet seq segment)]).
Proof.
  intros Hlen. unfold sendPacket. rewrite frame_segment by assumption.
  cbn [each_server await_ack acknowledge_all ack_for seqNum data_packet hdr].
  now rewrite Z.eqb_refl.
Qed.

Lemma fread_all buffer unread :
  Z.of_nat (length unread) < MAX_MSS ->
  fread buffer unread (Z.of_nat (length unread))
  = Some (unread ++ skipn (length unread) buffer, [], Z.of_nat (length unread)).
Proof.
  intros Hlen. unfold fread, MAX_MSS in *.
  rewrite to_size_t_small by lia.
  rewrite Z.leb_refl.
  destruct (Z.ltb_spec 1024 (Z.of_nat (length unread))); [lia|].
  now rewrite skipn_all.
Qed.

Lemma fread_full buffer unread :
  mss <= Z.of_nat (length unread) ->
  fread buffer unread mss
  = Some (firstn (Z.to_nat mss) unread ++ skipn (Z.to_nat mss) buffer,
          skipn (Z.to_nat mss) unread, mss).
Proof.
  intros Hlen. unfold fread. unfold MAX_MSS in *.
  rewrite to_size_t_small by lia.
  assert (Hgot : (if Z.of_nat (length unread) <=? mss then unread
                  else firstn (Z.to_nat mss) unread)
                 = firstn (Z.to_nat mss) unread).
  { destruct (Z.leb_spec (Z.of_nat (length unread)) mss); [|reflexivity].
    symmetry. apply firstn_all2. lia. }
  rewrite Hgot.
  assert (Hl : length (firstn (Z.to_nat mss) unread) = Z.to_nat mss)
    by (rewrite length_firstn; lia).
  rewrite Hl, Z2Nat.id by lia.
  destruct (Z.ltb_spec 1024 mss); [lia|]. reflexivity.
Qed.

(** The loop of [main] on the recording link: it sends the segments of
    the bytes still unread, numbered from [segmentNum]. *)
Lemma segment_loop_recorded count :
  forall fuel log unread buffer segmentNum,
    0 <= segmentNum ->
    Z.of_nat (length unread) = fileLength - mss * segmentNum ->
    Z.of_nat count * mss <= Z.of_nat (length unread) < Z.of_nat count * mss + mss ->
    (count < fuel)%nat ->
    exists buffer',
      segment_loop Recorded acknowledge_all fuel (S retries) 1 fileLength mss
                   (segmentNum + Z.of_nat count + 1) log unread buffer segmentNum
      = Done (log ++ numbered segmentNum (file_segments count (Z.to_nat mss) unread),
              buffer', segmentNum + Z.of_nat count + 1).
Proof.
  unfold MAX_MSS, INT_MAX in *.
  induction count as [|count IH];
    intros fuel log unread buffer i Hi Hunread Hcount Hfuel;
    (destruct fuel as [|fuel]; [lia|]); cbn [segment_loop].
  - (* the last segment: what is left of the file *)
    replace (i + Z.of_nat 0 + 1) with (i + 1) by lia.
    destruct (Z.ltb_spec i (i + 1)); [|lia].
    destruct (Z.ltb_spec i (i + 1 - 1)); [lia|].
    assert (Hprod : in_int (mss * i) = true).
    { unfold in_int, INT_MIN, INT_MAX. apply andb_true_intro. split;
        [apply Z.leb_le | apply Z.leb_le]; nia. }
    rewrite Hprod.
    assert (Hsize : to_int (to_size_t (fileLength - to_size_t (mss * i)))
                    = Z.of_nat (length unread)).
    { rewrite (to_size_t_small (mss * i)) by nia.
      rewrite to_size_t_small by lia.
      rewrite to_int_small; unfold INT_MIN, INT_MAX; lia. }
    rewrite Hsize, fread_all by (unfold MAX_MSS; lia).
    rewrite Z.eqb_refl. cbn [negb].
    rewrite sendPacket_recorded by (unfold MAX_MSS; lia).
    destruct fuel as [|fuel]; cbn [segment_loop];
      (destruct (Z.ltb_spec (i + 1) (i + 1)); [lia|]);
      eexists; cbn [file_segments numbered]; reflexivity.
  - (* a full segment *)
    destruct (Z.ltb_spec i (i + Z.of_nat (S count) + 1)); [|lia].
    destruct (Z.ltb_spec i (i + Z.of_nat (S count) + 1 - 1)); [|lia].
    rewrite fread_full by nia.
    rewrite Z.eqb_refl. cbn [negb].
    set (segment := firstn (Z.to_nat mss) unread).
    assert (Hseg : Z.of_nat (length segment) = mss)
      by (unfold segment; rewrite length_firstn; nia).
    assert (Hsend := sendPacket_recorded log i segment (skipn (Z.to_nat mss) buffer)).
    rewrite Hseg in Hsend. rewrite Hsend by (unfold MAX_MSS; lia).
    destruct (IH fuel (log ++ [(0%nat, data_packet i segment)])
                 (skipn (Z.to_nat mss) unread)
                 (segment ++ skipn (Z.to_nat mss) buffer) (i + 1))
      as [buffer' Hrec]; try lia.
    + rewrite length_skipn. nia.
    + rewrite length_skipn. nia.
    + exists buffer'.
      replace (i + Z.of_nat (S count) + 1) with (i + 1 + Z.of_nat count + 1) by lia.
      rewrite Hrec. cbn [file_segments numbered]. fold segment.
      now rewrite <- app_assoc.
Qed.

End Recording.

Lemma numbered_app segments :
  forall seq more,
    numbered seq (segments ++ more)
    = numbered seq segments ++ numbered (seq + Z.of_nat (length segments)) more.
Proof.
  induction segments as [|segment segments IH]; intros seq more.
  - simpl. now rewrite Z.add_0_r.
  - cbn [numbered app length]. rewrite IH. do 3 f_equal. lia.
Qed.

(** X16.  What [main] transmits to one server that acknowledges every packet at
    once: [fileLength / mss] segments of [mss] bytes, then the segment of
    the [fileLength mod mss] bytes that are left (an empty one when [mss]
    divides the length), then the zero-length end marker; the segments
    are numbered from 0 and together they are the file. *)
Lemma sender_transmits retries contents mss buffer :
  0 < mss < MAX_MSS ->
  Z.of_nat (length contents) < INT_MAX ->
  let count := Z.to_nat (Z.of_nat (length contents) / mss) in
  let segments := file_segments count (Z.to_nat mss) contents in
  main Recorded acknowledge_all (S retries) 1 [] contents mss buffer
  = Done (numbered 0 (segments ++ [[]]))
  /\ concat segments = contents
  /\ length segments = S count
  /\ Z.of_nat (length (last segments [])) = Z.of_nat (length contents) mod mss.
Proof.
  intros Hmss Hlen count segments.
  set (L := Z.of_nat (length contents)) in *.
  assert (HL : 0 <= L) by (unfold L; lia).
  assert (Hdiv : 0 <= L / mss) by (apply Z.div_pos; lia).
  assert (Hcount : Z.of_nat count = L / mss) by (unfold count; lia).
  pose proof (Z.div_mod L mss ltac:(lia)) as Hdm.
  pose proof (Z.mod_pos_bound L mss ltac:(lia)) as Hmod.
  split; [|split; [|split]].
  - unfold main, MAX_MSS, INT_MAX in *.
    change (MAX_SERVERS <? Z.of_nat 1) with false. cbv iota.
    rewrite to_size_t_small by lia.
    destruct (Z.eqb_spec mss 0); [lia|].
    fold L.
    assert (Hnum : to_int (to_size_t (L / mss + 1)) = 0 + Z.of_nat count + 1).
    { rewrite to_size_t_small by nia.
      rewrite to_int_small; unfold INT_MIN, INT_MAX; nia. }
    rewrite Hnum.
    destruct (segment_loop_recorded retries L mss Hmss (conj HL Hlen) count
                (S (length contents)) [] contents buffer 0)
      as [buffer' Hloop]; try (fold L; nia).
    rewrite Hloop. cbn [app].
    rewrite numbered_app.
    fold segments.
    assert (Hsegs : length segments = S count)
      by apply file_segments_length.
    rewrite Hsegs.
    replace (0 + Z.of_nat count + 1) with (0 + Z.of_nat (S count)) by lia.
    apply (sendPacket_recorded retries (numbered 0 segments)
                               (0 + Z.of_nat (S count)) [] buffer').
    simpl. unfold MAX_MSS. lia.
  - apply file_segments_concat.
  - apply file_segments_length.
  - unfold segments. rewrite file_segments_last; fold L; nia.
Qed.

End SenderFacts.

(** C1, at a failing input.  The three bytes 41 00 42 read from the file
    are framed with payload 41 00 00: [strncpy] stops at the NUL byte and
    pads.  The checksum is the one of the payload sent, so the receiver
    accepts the packet, and its output file 41 00 00 differs from the
    source file. *)
Theorem nul_byte_truncates_payload :
  frame 0 file_with_nul 3
  = Some {| hdr := {| seqNum := 0; checksum := -16641; type := DATA_PKT |};
            data := [x41; x00; x00] |}
  /\ calculateChecksum [x41; x00; x00] 3 = Some (-16641)
  /\ wire_payload file_with_nul <> file_with_nul
  /\ (exists peer,
         main Receivers (to_receiver 0%float 50) 1 1 [Continue initial]
              file_with_nul 4 blank_buffer
         = Done [peer]
         /\ output_file peer = Some [x41; x00; x00]
         /\ output_file peer <> Some file_with_nul).
Proof.
  split; [vm_compute; reflexivity|].
  split; [vm_compute; reflexivity|].
  split; [vm_compute; discriminate|].
  eexists. split; [vm_compute; reflexivity|].
  split; [reflexivity|]. simpl. unfold file_with_nul. discriminate.
Qed.

(** C2, at failing inputs.  For an empty file the sender transmits two
    zero-length segments, 0 and 1, not one.  Against a receiver, the loop
    of [main] exchanges segment 0, on which the receiver leaves its loop
    with an empty file; the end marker, segment 1, is then retransmitted
    without end, whatever number of retries is looked at.  For a file of
    exactly [mss] bytes the sender transmits segment 0 (full) and then
    two zero-length segments, 1 and 2. *)
Theorem exact_multiple_sends_two_empty_segments :
  main Recorded acknowledge_all 1 1 [] [] 4 blank_buffer
  = Done [(0%nat, empty_packet 0); (0%nat, empty_packet 1)]
  /\ (forall retries,
         segment_loop Receivers (to_receiver 0%float 50) 1 (S retries) 1 0 4 1
                      [Continue initial] [] blank_buffer 0
         = Done ([Break (accept initial (empty_packet 0))], blank_buffer, 1)
         /\ output_file (Break (accept initial (empty_packet 0))) = Some []
         /\ sendPacket Receivers (to_receiver 0%float 50) (S retries) 1
                       [Break (accept initial (empty_packet 0))] 1 blank_buffer 0
            = Stalled
         /\ main Receivers (to_receiver 0%float 50) (S retries) 1 [Continue initial]
                 [] 4 blank_buffer
            = Stalled)
  /\ main Recorded acknowledge_all 1 1 [] two_byte_file 2 blank_buffer
     = Done [(0%nat, {| hdr := {| seqNum := 0; checksum := -16707; type := DATA_PKT |};
                        data := two_byte_file |});
             (0%nat, empty_packet 1);
             (0%nat, empty_packet 2)].
Proof.
  split; [vm_compute; reflexivity|].
  split; [|vm_compute; reflexivity].
  intros retries.
  set (gone := Break (accept initial (empty_packet 0))).
  assert (Hloop :
            segment_loop Receivers (to_receiver 0%float 50) 1 (S retries) 1 0 4 1
                         [Continue initial] [] blank_buffer 0
            = Done ([gone], blank_buffer, 1))
    by (vm_compute; reflexivity).
  assert (Hmark :
            sendPacket Receivers (to_receiver 0%float 50) (S retries) 1
                       [gone] 1 blank_buffer 0
            = Stalled).
  { unfold sendPacket.
    change (frame 1 blank_buffer 0) with (Some (empty_packet 1)). cbv iota.
    cbn [each_server]. rewrite await_ack_no_reply; reflexivity. }
  split; [exact Hloop|]. split; [reflexivity|]. split; [exact Hmark|].
  unfold main.
  change (MAX_SERVERS <? Z.of_nat 1) with false.
  change (to_size_t 4 =? 0) with false. cbv iota.
  change (S (length (@nil byte))) with 1%nat.
  change (Z.of_nat (length (@nil byte))) with 0.
  change (to_int (to_size_t (0 / to_size_t 4 + 1))) with 1.
  rewrite Hloop. exact Hmark.
Qed.

(* ------------------------------------------------------------------ *)
(** ** What the checksum sees and what it misses *)

Section ChecksumReach.

Lemma byte_unsigned_bounds b : 0 <= byte_unsigned b < 256.
Proof.
  unfold byte_unsigned. pose proof (Byte.to_N_bounded b). lia.
Qed.

Lemma byte_unsigned_inj a b : byte_unsigned a = byte_unsigned b -> a = b.
Proof.
  unfold byte_unsigned. intros H.
  assert (HN : Byte.to_N a = Byte.to_N b) by lia.
  pose proof (Byte.of_to_N a) as Ha. rewrite HN, Byte.of_to_N in Ha.
  now injection Ha.
Qed.

Lemma wsum_app front :
  forall hi back,
    wsum hi (front ++ back)
    = wsum hi front + wsum (if Nat.even (length front) then hi else negb hi) back.
Proof.
  induction front as [|b front IH]; intros hi back.
  - simpl. reflexivity.
  - cbn [app wsum length]. rewrite IH, Nat.even_succ, <- Nat.negb_even.
    destruct (Nat.even (length front)); cbn [negb];
      rewrite ?Bool.negb_involutive; ring.
Qed.

Lemma wsum_zeros m : forall hi, wsum hi (repeat x00 m) = 0.
Proof.
  induction m as [|m IH]; intros hi; simpl; [reflexivity|].
  rewrite IH. destruct hi; reflexivity.
Qed.

Lemma calculateChecksum_all buffer :
  calculateChecksum buffer (Z.of_nat (length buffer))
  = Some (int16 (Z.lnot (wsum true buffer))).
Proof.
  rewrite calculateChecksum_wsum by lia.
  now rewrite Nat2Z.id, firstn_all.
Qed.

Lemma store_length buffer : forall idx b, length (store buffer idx b) = length buffer.
Proof.
  induction buffer as [|c rest IH]; intros [|idx] b; simpl; auto.
Qed.

Lemma firstn_store buffer :
  forall idx b n, (idx < n)%nat ->
    firstn n (store buffer idx b) = store (firstn n buffer) idx b.
Proof.
  induction buffer as [|c rest IH]; intros idx b n Hlt.
  - destruct n, idx; reflexivity.
  - destruct n as [|n]; [lia|]. destruct idx as [|idx]; simpl.
    + reflexivity.
    + f_equal. apply IH. lia.
Qed.

Lemma wsum_store buffer :
  forall idx old new hi,
    nth_error buffer idx = Some old -> new <> old ->
    exists d, wsum hi (store buffer idx new) = wsum hi buffer + d
              /\ 0 < Z.abs d < 65536.
Proof.
  induction buffer as [|c rest IH]; intros idx old new hi Hnth Hneq.
  - destruct idx; discriminate.
  - destruct idx as [|idx]; cbn [store wsum].
    + injection Hnth as ->.
      pose proof (byte_unsigned_bounds old). pose proof (byte_unsigned_bounds new).
      assert (byte_unsigned new <> byte_unsigned old)
        by (intros H1; now apply byte_unsigned_inj in H1).
      exists ((if hi then 256 else 1) * (byte_unsigned new - byte_unsigned old)).
      split; [ring|]. destruct hi; lia.
    + destruct (IH idx old new (negb hi) Hnth Hneq) as [d [Hd Hr]].
      exists d. rewrite Hd. split; [ring|assumption].
Qed.

Lemma nth_error_firstn_lt (buffer : list byte) :
  forall idx n, (idx < n)%nat -> nth_error (firstn n buffer) idx = nth_error buffer idx.
Proof.
  induction buffer as [|c rest IH]; intros idx n Hlt.
  - destruct n, idx; reflexivity.
  - destruct n as [|n]; [lia|]. destruct idx as [|idx]; simpl; [reflexivity|].
    apply IH. lia.
Qed.

(** Beyond the end of the buffer the loop or the tail reads outside it. *)
Lemma checksum_from_beyond :
  forall buffer bufferSize sum fuel,
    Z.of_nat (length buffer) < bufferSize ->
    checksum_from fuel buffer bufferSize 0 sum = None.
Proof.
  induction buffer as [| b | b0 b1 rest IH] using byte_pairs_ind;
    intros n sum fuel Hn; simpl length in Hn.
  - unfold checksum_from.
    destruct (Z.eq_dec n 1) as [-> | Hn1].
    + replace (checksum_loop fuel [] 1 0 sum) with (Some sum)
        by (destruct fuel; reflexivity).
      reflexivity.
    + destruct fuel as [|fuel]; cbn [checksum_loop];
        rewrite loop_bound_in_int by lia;
        (destruct (Z.ltb_spec 0 (n - 1)); [|lia]); reflexivity.
  - unfold checksum_from.
    destruct fuel as [|fuel]; cbn [checksum_loop];
      rewrite loop_bound_in_int by lia;
      (destruct (Z.ltb_spec 0 (n - 1)); [|lia]); reflexivity.
  - destruct fuel as [|fuel].
    + unfold checksum_from. cbn [checksum_loop].
      rewrite loop_bound_in_int by lia.
      destruct (Z.ltb_spec 0 (n - 1)); [|lia]. reflexivity.
    + rewrite checksum_from_step by lia. apply IH. lia.
Qed.

End ChecksumReach.

(** X1.  Zero bytes appended to a buffer do not change its checksum:
    [calculateChecksum] over the buffer followed by any number of zero
    bytes equals [calculateChecksum] over the buffer alone, so the
    checksum does not tell a payload from the same payload padded with
    NULs. *)
Theorem trailing_zeros_keep_checksum (buffer : list byte) (zeros : nat) :
  calculateChecksum (buffer ++ repeat x00 zeros)
                    (Z.of_nat (length (buffer ++ repeat x00 zeros)))
  = calculateChecksum buffer (Z.of_nat (length buffer)).
Proof.
  rewrite !calculateChecksum_all, wsum_app, wsum_zeros.
  now rewrite Z.add_0_r.
Qed.

(** X2.  A change of one byte among the first [bufferSize] bytes to a
    different value always changes the checksum over those bytes. *)
Theorem one_byte_change_changes_checksum
        (buffer : list byte) (bufferSize : Z) (idx : nat) (old new : byte) :
  0 <= bufferSize <= Z.of_nat (length buffer) ->
  Z.of_nat idx < bufferSize ->
  nth_error buffer idx = Some old ->
  new <> old ->
  calculateChecksum (store buffer idx new) bufferSize
  <> calculateChecksum buffer bufferSize.
Proof.
  intros Hn Hidx Hold Hneq.
  rewrite !calculateChecksum_wsum by (rewrite ?store_length; assumption).
  rewrite firstn_store by lia.
  destruct (wsum_store (firstn (Z.to_nat bufferSize) buffer) idx old new true)
    as [d [Hd Hr]]; [rewrite nth_error_firstn_lt by lia; assumption | assumption |].
  rewrite Hd. intros Heq. injection Heq as Heq.
  apply int16_inj_mod in Heq. destruct Heq as [k Hk].
  rewrite !lnot_sub in Hk. lia.
Qed.

Lemma one_byte_change_changes_checksum_witness :
  calculateChecksum (store [x01; x02; x03] 1 xff) 3
  <> calculateChecksum [x01; x02; x03] 3.
Proof.
  apply (one_byte_change_changes_checksum [x01; x02; x03] 3 1 x02 xff);
    [simpl; lia | lia | reflexivity | discriminate].
Defined.

(** X3.  The checksum does not see the order of blocks of even length:
    exchanging two adjacent blocks whose lengths are even leaves the
    checksum of the whole buffer unchanged. *)
Theorem even_blocks_commute_under_checksum (front back : list byte) :
  Nat.even (length front) = true ->
  Nat.even (length back) = true ->
  calculateChecksum (front ++ back) (Z.of_nat (length (front ++ back)))
  = calculateChecksum (back ++ front) (Z.of_nat (length (back ++ front))).
Proof.
  intros Hfront Hback.
  rewrite !calculateChecksum_all, !wsum_app, Hfront, Hback.
  do 3 f_equal. ring.
Qed.

Lemma even_blocks_commute_under_checksum_witness :
  calculateChecksum ([x01; x02] ++ [x03; x04; x05; x06])
                    (Z.of_nat (length ([x01; x02] ++ [x03; x04; x05; x06])))
  = calculateChecksum ([x03; x04; x05; x06] ++ [x01; x02])
                      (Z.of_nat (length ([x03; x04; x05; x06] ++ [x01; x02]))).
Proof.
  apply (even_blocks_commute_under_checksum [x01; x02] [x03; x04; x05; x06]);
    reflexivity.
Defined.

(** X4.  [calculateChecksum] stays inside the buffer exactly when the
    length given is within it: for a non-negative [bufferSize] it has a
    result if and only if [bufferSize] is at most the size of the buffer.
    A negative even [bufferSize] above [INT_MIN] reads nothing and gives
    -1; a negative odd one reads in front of the buffer; at [INT_MIN] the
    bound [bufferSize - 1] of the loop overflows, so there is no defined
    result. *)
Theorem calculateChecksum_bounds (buffer : list byte) (bufferSize : Z) :
  (0 <= bufferSize ->
   (calculateChecksum buffer bufferSize = None
    <-> Z.of_nat (length buffer) < bufferSize))
  /\ (INT_MIN < bufferSize < 0 ->
      calculateChecksum buffer bufferSize
      = if Z.even bufferSize then Some (-1) else None)
  /\ calculateChecksum buffer INT_MIN = None.
Proof.
  split; [|split].
  - intros Hn. split.
    + intros Hnone.
      destruct (Z.lt_ge_cases (Z.of_nat (length buffer)) bufferSize) as [H|H];
        [assumption|].
      rewrite calculateChecksum_wsum in Hnone by lia. discriminate.
    + intros Hlen. unfold calculateChecksum. now apply checksum_from_beyond.
  - intros Hneg. unfold calculateChecksum, checksum_from.
    replace (Z.to_nat bufferSize) with 0%nat by lia.
    cbn [checksum_loop].
    destruct (Z.ltb_spec (bufferSize - 1) INT_MIN); [lia|].
    destruct (Z.ltb_spec 0 (bufferSize - 1)); [lia|].
    unfold checksum_tail, read.
    destruct (Z.ltb_spec (bufferSize - 1) 0); [|lia].
    assert (Hrem : (Z.rem bufferSize 2 =? 0) = Z.even bufferSize).
    { destruct (Z.even bufferSize) eqn:E.
      - apply Z.eqb_eq. apply Z.even_spec in E. destruct E as [k ->].
        rewrite Z.mul_comm. apply Z.rem_mul. lia.
      - apply Z.eqb_neq. intros Hr.
        assert (Hdiv : (2 | bufferSize)) by (apply Z.rem_divide; [lia|assumption]).
        destruct Hdiv as [k ->].
        rewrite Z.mul_comm, Z.even_mul in E. discriminate. }
    rewrite Hrem. destruct (Z.even bufferSize); reflexivity.
  - reflexivity.
Qed.

(* ------------------------------------------------------------------ *)
(** ** Framing and the retry loop of the sender *)

Section Framing.

Lemma frame_some seq buffer bufferSize pkt :
  frame seq buffer bufferSize = Some pkt ->
  0 <= bufferSize < MAX_MSS
  /\ strncpy buffer (Z.to_nat bufferSize) = Some (data pkt)
  /\ calculateChecksum (data pkt) bufferSize = Some (checksum (hdr pkt))
  /\ seqNum (hdr pkt) = seq
  /\ type (hdr pkt) = DATA_PKT.
Proof.
  unfold frame.
  destruct (Z.ltb_spec bufferSize 0); [discriminate|].
  destruct (Z.leb_spec MAX_MSS bufferSize); [discriminate|]. cbn [orb].
  destruct (strncpy buffer (Z.to_nat bufferSize)) as [d|] eqn:Ed; [|discriminate].
  destruct (calculateChecksum d bufferSize) as [c|] eqn:Ec; [|discriminate].
  intros [= <-]. simpl. repeat split; auto; lia.
Qed.

Lemma frame_with_nul seq before after rest :
  ~ In x00 before ->
  Z.of_nat (length (before ++ x00 :: after)) < MAX_MSS ->
  exists pkt,
    frame seq ((before ++ x00 :: after) ++ rest)
          (Z.of_nat (length (before ++ x00 :: after)))
    = Some pkt
    /\ data pkt = before ++ repeat x00 (S (length after)).
Proof.
  intros Hnul Hlen.
  rewrite frame_segment by assumption.
  eexists. split; [reflexivity|].
  unfold data_packet, wire_payload. cbn [data].
  rewrite strncpy_after_nul by (rewrite ?length_app; simpl; (assumption || lia)).
  f_equal. f_equal. rewrite length_app. simpl. lia.
Qed.

End Framing.

(** X5.  A packet framed by [sendPacket] passes the checks of the
    receiver: it is tagged DATA, the checksum recomputed over its payload
    equals its checksum field, it carries the segment number, and its
    payload has [bufferSize] bytes. *)
Theorem framed_packet_passes_receiver_checks
        (seq : Z) (buffer : list byte) (bufferSize : Z) (pkt : Packet) :
  frame seq buffer bufferSize = Some pkt ->
  is_data pkt = true
  /\ checksum_ok pkt = true
  /\ seqNum (hdr pkt) = seq
  /\ Z.of_nat (length (data pkt)) = bufferSize.
Proof.
  intros Hframe.
  destruct (frame_some _ _ _ _ Hframe) as (Hn & Hcopy & Hsum & Hseq & Htype).
  assert (Hlen : Z.of_nat (length (data pkt)) = bufferSize)
    by (apply strncpy_length in Hcopy; lia).
  unfold is_data, checksum_ok. rewrite Htype, Hlen, Hsum, !Z.eqb_refl. auto.
Qed.

Lemma framed_packet_passes_receiver_checks_witness :
  is_data first_packet = true
  /\ checksum_ok first_packet = true
  /\ seqNum (hdr first_packet) = 0
  /\ Z.of_nat (length (data first_packet)) = 1.
Proof.
  apply (framed_packet_passes_receiver_checks 0 [x41; x42] 1 first_packet).
  reflexivity.
Defined.

(** X6.  A segment with a NUL byte is not sent as it is: when the first
    NUL byte of the segment stands after the bytes [before], the payload
    framed by [sendPacket] is [before] followed by NUL bytes up to the
    length of the segment, whatever followed the NUL byte in the file. *)
Theorem payload_is_zeroed_after_first_nul
        (seq : Z) (before after rest : list byte) :
  ~ In x00 before ->
  Z.of_nat (length (before ++ x00 :: after)) < MAX_MSS ->
  exists pkt,
    frame seq ((before ++ x00 :: after) ++ rest)
          (Z.of_nat (length (before ++ x00 :: after)))
    = Some pkt
    /\ data pkt = before ++ repeat x00 (S (length after)).
Proof. exact (frame_with_nul seq before after rest). Qed.

Lemma payload_is_zeroed_after_first_nul_witness :
  exists pkt,
    frame 7 (([x41] ++ x00 :: [x42; x43]) ++ [x44])
          (Z.of_nat (length ([x41] ++ x00 :: [x42; x43])))
    = Some pkt
    /\ data pkt = [x41] ++ repeat x00 (S (length [x42; x43])).
Proof.
  apply (payload_is_zeroed_after_first_nul 7 [x41] [x42; x43] [x44]).
  - simpl. intros [H|H]; [discriminate|contradiction].
  - simpl. unfold MAX_MSS. lia.
Defined.

Section RetryLoop.

Lemma await_ack_scripted segmentNum serverNum packet before :
  forall retries final after log,
    forallb (keeps_waiting segmentNum) before = true ->
    keeps_waiting segmentNum final = false ->
    (length before < retries)%nat ->
    await_ack Scripted scripted retries (before ++ final :: after, log)
              serverNum packet segmentNum
    = Some (after, log ++ repeat (serverNum, packet) (S (length before))).
Proof.
  induction before as [|reply before IH];
    intros retries final after log Hwait Hfinal Hretries;
    (destruct retries as [|retries]; [simpl in Hretries; lia|]).
  - cbn [app await_ack scripted]. destruct final as [|ack]; [discriminate|].
    cbn [keeps_waiting] in Hfinal.
    destruct (seqNum ack =? segmentNum); [reflexivity|].
    destruct (seqNum ack =? INVALID_SEQ_NO); [reflexivity|discriminate].
  - cbn [forallb] in Hwait. apply andb_prop in Hwait. destruct Hwait as [Hr Hwait].
    cbn [app await_ack scripted].
    assert (Hnext :
              await_ack Scripted scripted retries
                        (before ++ final :: after, log ++ [(serverNum, packet)])
                        serverNum packet segmentNum
              = Some (after, log ++ repeat (serverNum, packet) (S (S (length before))))).
    { rewrite IH by (assumption || (simpl in Hretries; lia)).
      do 2 f_equal. rewrite <- app_assoc. reflexivity. }
    destruct reply as [|ack]; [exact Hnext|].
    cbn [keeps_waiting] in Hr. apply andb_prop in Hr. destruct Hr as [H1 H2].
    destruct (seqNum ack =? segmentNum); [discriminate|].
    destruct (seqNum ack =? INVALID_SEQ_NO); [discriminate|].
    exact Hnext.
Qed.

Lemma await_ack_scripted_forever segmentNum serverNum packet retries :
  forall replies log,
    forallb (keeps_waiting segmentNum) replies = true ->
    await_ack Scripted scripted retries (replies, log) serverNum packet segmentNum
    = None.
Proof.
  induction retries as [|retries IH]; intros replies log Hwait; [reflexivity|].
  cbn [await_ack scripted].
  destruct replies as [|reply later].
  - apply IH. reflexivity.
  - cbn [forallb] in Hwait. apply andb_prop in Hwait. destruct Hwait as [Hr Hwait].
    destruct reply as [|ack]; [now apply IH|].
    cbn [keeps_waiting] in Hr. apply andb_prop in Hr. destruct Hr as [H1 H2].
    destruct (seqNum ack =? segmentNum); [discriminate|].
    destruct (seqNum ack =? INVALID_SEQ_NO); [discriminate|].
    now apply IH.
Qed.

End RetryLoop.

(** X7.  The retry loop of [sendPacket] for one server transmits the same
    packet once per reply it takes and leaves at the first reply that is
    an acknowledgement carrying [segmentNum] or [INVALID_SEQ_NO], not
    before: timeouts and acknowledgements with other numbers make it send
    again.  When no such reply ever comes the loop does not end, however
    many transmissions are looked at. *)
Theorem retry_loop_ends_at_first_matching_ack
        (segmentNum : Z) (serverNum : nat) (packet : Packet) :
  (forall retries before final after log,
      forallb (keeps_waiting segmentNum) before = true ->
      keeps_waiting segmentNum final = false ->
      (length before < retries)%nat ->
      await_ack Scripted scripted retries (before ++ final :: after, log)
                serverNum packet segmentNum
      = Some (after, log ++ repeat (serverNum, packet) (S (length before))))
  /\ (forall retries replies log,
         forallb (keeps_waiting segmentNum) replies = true ->
         await_ack Scripted scripted retries (replies, log)
                   serverNum packet segmentNum
         = None).
Proof.
  split.
  - intros retries before final after log.
    apply await_ack_scripted.
  - intros retries replies log. apply await_ack_scripted_forever.
Qed.

(** X8.  A segment without NUL bytes is framed as it is: the payload is
    the segment and the checksum field is the checksum of its bytes. *)
Theorem segment_without_nul_is_framed_unchanged
        (segmentNum : Z) (buffer : list byte) (bufferSize : Z) :
  0 <= bufferSize < MAX_MSS ->
  bufferSize <= Z.of_nat (length buffer) ->
  ~ In x00 (firstn (Z.to_nat bufferSize) buffer) ->
  exists cksum,
    calculateChecksum (firstn (Z.to_nat bufferSize) buffer) bufferSize = Some cksum
    /\ frame segmentNum buffer bufferSize
       = Some {| hdr := {| seqNum := segmentNum; checksum := cksum; type := DATA_PKT |};
                 data := firstn (Z.to_nat bufferSize) buffer |}.
Proof. exact (frame_without_nul segmentNum buffer bufferSize). Qed.

Lemma segment_without_nul_is_framed_unchanged_witness :
  exists cksum,
    calculateChecksum (firstn (Z.to_nat 2) [x41; x42; x00]) 2 = Some cksum
    /\ frame 3 [x41; x42; x00] 2
       = Some {| hdr := {| seqNum := 3; checksum := cksum; type := DATA_PKT |};
                 data := firstn (Z.to_nat 2) [x41; x42; x00] |}.
Proof.
  apply (segment_without_nul_is_framed_unchanged 3 [x41; x42; x00] 2).
  - unfold MAX_MSS. lia.
  - simpl. lia.
  - simpl. intros [H|[H|H]]; try discriminate. contradiction.
Defined.

(** X9.  With a maximum segment size of [MAX_MSS] (1024) or more and a
    file of at least [MAX_MSS] bytes the sender leaves its arrays at the
    first segment, on every transport: [fread] stores more than
    [buffer[MAX_MSS]] holds, or [sendPacket] stores the terminating NUL
    at [packet.data[MAX_MSS]]. *)
Theorem mss_of_max_or_more_overruns
        (Net : Type) (exchange : Net -> nat -> Packet -> Net * Reply)
        (retries numServers : nat) (net : Net)
        (contents : list byte) (mss : Z) (buffer : list byte) :
  MAX_MSS <= mss <= INT_MAX ->
  MAX_MSS <= Z.of_nat (length contents) < INT_MAX ->
  main Net exchange retries numServers net contents mss buffer = Faulty.
Proof.
  unfold MAX_MSS, INT_MAX. intros Hmss Hlen. unfold main.
  destruct (MAX_SERVERS <? Z.of_nat numServers); [reflexivity|].
  rewrite (to_size_t_small mss) by lia.
  destruct (Z.eqb_spec mss 0); [lia|].
  set (L := Z.of_nat (length contents)) in *.
  assert (Hq : 0 <= L / mss) by (apply Z.div_pos; lia).
  assert (Hq' : L / mss <= L) by (apply Z.div_le_upper_bound; nia).
  rewrite to_size_t_small by lia.
  rewrite to_int_small by (unfold INT_MIN, INT_MAX; lia).
  cbn [segment_loop].
  destruct (Z.ltb_spec 0 (L / mss + 1)); [|lia].
  assert (Hfaulty :
            forall bufferSize unread,
              MAX_MSS <= bufferSize <= INT_MAX ->
              bufferSize <= Z.of_nat (length unread) ->
              match fread buffer unread bufferSize with
              | Some (buffer', unread', nread) =>
                  if negb (nread =? bufferSize) then @ShortRead (Net * list byte * Z)
                  else
                    match sendPacket Net exchange retries numServers net 0
                                     buffer' bufferSize with
                    | Done net' =>
                        segment_loop Net exchange (length contents) retries numServers
                                     L mss (L / mss + 1) net' unread' buffer' (0 + 1)
                    | Stalled => Stalled
                    | ShortRead => ShortRead
                    | Faulty => Faulty
                    end
              | None => Faulty
              end = Faulty).
  { unfold MAX_MSS, INT_MAX. intros size unread Hn Hun. unfold fread.
    rewrite to_size_t_small by lia.
    set (got := if Z.of_nat (length unread) <=? size then unread
                else firstn (Z.to_nat size) unread).
    assert (Hgot : Z.of_nat (length got) = size).
    { unfold got. destruct (Z.leb_spec (Z.of_nat (length unread)) size); [lia|].
      rewrite length_firstn. lia. }
    rewrite Hgot. unfold MAX_MSS.
    destruct (Z.ltb_spec 1024 size); [reflexivity|].
    rewrite Z.eqb_refl. cbn [negb].
    unfold sendPacket, frame, MAX_MSS.
    destruct (Z.ltb_spec size 0); [lia|].
    destruct (Z.leb_spec 1024 size); [|lia]. reflexivity. }
  cbv zeta.
  destruct (Z.ltb_spec 0 (L / mss + 1 - 1)) as [Hfull | Hlast].
  - rewrite Hfaulty; [reflexivity | unfold MAX_MSS, INT_MAX; lia |].
    assert (1 <= L / mss) by lia.
    pose proof (Z.mul_div_le L mss ltac:(lia)). fold L. nia.
  - replace (mss * 0) with 0 by lia.
    change (in_int 0) with true. cbv iota.
    rewrite (to_size_t_small 0) by lia.
    rewrite Z.sub_0_r, to_size_t_small by lia.
    rewrite to_int_small by (unfold INT_MIN, INT_MAX; lia).
    rewrite Hfaulty; [reflexivity | unfold MAX_MSS, INT_MAX; lia | fold L; lia].
Qed.

Lemma mss_of_max_or_more_overruns_witness :
  main Recorded acknowledge_all 1 1 [] (repeat x41 1024) 1024 blank_buffer = Faulty.
Proof.
  apply (mss_of_max_or_more_overruns Recorded acknowledge_all 1 1 []
           (repeat x41 1024) 1024 blank_buffer).
  - unfold MAX_MSS, INT_MAX. lia.
  - rewrite repeat_length. unfold MAX_MSS, INT_MAX. lia.
Defined.

(* ------------------------------------------------------------------ *)
(** ** [main] as a sequence of calls of [sendPacket] *)

Section MainAsCalls.

Variable Net : Type.
Variable exchange : Net -> nat -> Packet -> Net * Reply.
Variables (retries numServers : nat).

(** [sendPacket] reads [bufferSize] bytes of its buffer and no more. *)
Lemma sendPacket_prefix net seq segment rest :
  Z.of_nat (length segment) < MAX_MSS ->
  sendPacket Net exchange retries numServers net seq (segment ++ rest)
             (Z.of_nat (length segment))
  = sendPacket Net exchange retries numServers net seq segment
               (Z.of_nat (length segment)).
Proof.
  intros Hlen. unfold sendPacket. rewrite frame_segment by assumption.
  pose proof (frame_segment seq segment [] Hlen) as Hself.
  rewrite app_nil_r in Hself. now rewrite Hself.
Qed.

Lemma send_all_app front :
  forall net seq back,
    send_all Net exchange retries numServers net seq (front ++ back)
    = match send_all Net exchange retries numServers net seq front with
      | Done net' =>
          send_all Net exchange retries numServers net'
                   (seq + Z.of_nat (length front)) back
      | Stalled => Stalled
      | ShortRead => ShortRead
      | Faulty => Faulty
      end.
Proof.
  induction front as [|segment front IH]; intros net seq back.
  - simpl. now rewrite Z.add_0_r.
  - cbn [app send_all length].
    destruct (sendPacket Net exchange retries numServers net seq segment
                         (Z.of_nat (length segment))); try reflexivity.
    rewrite IH. replace (seq + 1 + Z.of_nat (length front))
      with (seq + Z.of_nat (S (length front))) by lia.
    reflexivity.
Qed.

Variables (fileLength mss : Z).
Hypothesis mss_range : 0 < mss < MAX_MSS.
Hypothesis fileLength_range : 0 <= fileLength < INT_MAX.

(** The loop of [main] calls [sendPacket] on the segments of the bytes
    still unread. *)
Lemma segment_loop_calls count :
  forall fuel net unread buffer segmentNum,
    0 <= segmentNum ->
    Z.of_nat (length unread) = fileLength - mss * segmentNum ->
    Z.of_nat count * mss <= Z.of_nat (length unread) < Z.of_nat count * mss + mss ->
    (count < fuel)%nat ->
    exists buffer',
      segment_loop Net exchange fuel retries numServers fileLength mss
                   (segmentNum + Z.of_nat count + 1) net unread buffer segmentNum
      = match send_all Net exchange retries numServers net segmentNum
                       (file_segments count (Z.to_nat mss) unread) with
        | Done net' => Done (net', buffer', segmentNum + Z.of_nat count + 1)
        | Stalled => Stalled
        | ShortRead => ShortRead
        | Faulty => Faulty
        end.
Proof.
  unfold MAX_MSS, INT_MAX in *.
  induction count as [|count IH];
    intros fuel net unread buffer i Hi Hunread Hcount Hfuel;
    (destruct fuel as [|fuel]; [lia|]); cbn [segment_loop].
  - replace (i + Z.of_nat 0 + 1) with (i + 1) by lia.
    destruct (Z.ltb_spec i (i + 1)); [|lia].
    destruct (Z.ltb_spec i (i + 1 - 1)); [lia|].
    assert (Hprod : in_int (mss * i) = true).
    { unfold in_int, INT_MIN, INT_MAX. apply andb_true_intro. split;
        [apply Z.leb_le | apply Z.leb_le]; nia. }
    rewrite Hprod.
    assert (Hsize : to_int (to_size_t (fileLength - to_size_t (mss * i)))
                    = Z.of_nat (length unread)).
    { rewrite (to_size_t_small (mss * i)) by nia.
      rewrite to_size_t_small by lia.
      rewrite to_int_small; unfold INT_MIN, INT_MAX; lia. }
    rewrite Hsize, fread_all by (unfold MAX_MSS; lia).
    rewrite Z.eqb_refl. cbn [negb].
    rewrite sendPacket_prefix by (unfold MAX_MSS; lia).
    cbn [file_segments send_all].
    exists (unread ++ skipn (length unread) buffer).
    destruct (sendPacket Net exchange retries numServers net i unread
                         (Z.of_nat (length unread))); try reflexivity.
    destruct fuel as [|fuel]; cbn [segment_loop];
      (destruct (Z.ltb_spec (i + 1) (i + 1)); [lia|]); reflexivity.
  - destruct (Z.ltb_spec i (i + Z.of_nat (S count) + 1)); [|lia].
    destruct (Z.ltb_spec i (i + Z.of_nat (S count) + 1 - 1)); [|lia].
    rewrite (fread_full mss mss_range) by nia.
    rewrite Z.eqb_refl. cbn [negb].
    set (segment := firstn (Z.to_nat mss) unread).
    assert (Hseg : Z.of_nat (length segment) = mss)
      by (unfold segment; rewrite length_firstn; nia).
    assert (Hsend := sendPacket_prefix net i segment (skipn (Z.to_nat mss) buffer)).
    rewrite Hseg in Hsend. rewrite Hsend by (unfold MAX_MSS; lia).
    cbn [file_segments send_all]. fold segment. rewrite Hseg.
    destruct (sendPacket Net exchange retries numServers net i segment mss)
      as [net1| | |]; try (exists buffer; reflexivity).
    destruct (IH fuel net1 (skipn (Z.to_nat mss) unread)
                 (segment ++ skipn (Z.to_nat mss) buffer) (i + 1))
      as [buffer' Hrec]; try lia.
    + rewrite length_skipn. nia.
    + rewrite length_skipn. nia.
    + exists buffer'.
      replace (i + Z.of_nat (S count) + 1) with (i + 1 + Z.of_nat count + 1) by lia.
      exact Hrec.
Qed.

End MainAsCalls.

(** [main] is [sendPacket] on the segments of the file and then on the
    empty end marker, on every transport. *)
Lemma main_as_calls (Net : Type) (exchange : Net -> nat -> Packet -> Net * Reply)
      (retries numServers : nat) (net : Net)
      (contents : list byte) (mss : Z) (buffer : list byte) :
  0 < mss < MAX_MSS ->
  Z.of_nat (length contents) < INT_MAX ->
  Z.of_nat numServers <= MAX_SERVERS ->
  main Net exchange retries numServers net contents mss buffer
  = send_all Net exchange retries numServers net 0
             (file_segments (Z.to_nat (Z.of_nat (length contents) / mss))
                            (Z.to_nat mss) contents ++ [[]]).
Proof.
  intros Hmss Hlen Hservers.
  set (L := Z.of_nat (length contents)) in *.
  assert (HL : 0 <= L) by (unfold L; lia).
  assert (Hdiv : 0 <= L / mss) by (apply Z.div_pos; lia).
  set (count := Z.to_nat (L / mss)).
  assert (Hcount : Z.of_nat count = L / mss) by (unfold count; lia).
  pose proof (Z.div_mod L mss ltac:(lia)) as Hdm.
  pose proof (Z.mod_pos_bound L mss ltac:(lia)) as Hmod.
  unfold main.
  destruct (Z.ltb_spec MAX_SERVERS (Z.of_nat numServers)); [lia|].
  unfold MAX_MSS, INT_MAX in *.
  rewrite to_size_t_small by lia.
  destruct (Z.eqb_spec mss 0); [lia|].
  fold L.
  assert (Hnum : to_int (to_size_t (L / mss + 1)) = 0 + Z.of_nat count + 1).
  { rewrite to_size_t_small by nia.
    rewrite to_int_small; unfold INT_MIN, INT_MAX; nia. }
  rewrite Hnum.
  destruct (segment_loop_calls Net exchange retries numServers L mss Hmss
              (conj HL Hlen) count (S (length contents)) net contents buffer 0)
    as [buffer' Hloop]; try (fold L; nia).
  rewrite Hloop, send_all_app.
  destruct (send_all Net exchange retries numServers net 0
                     (file_segments count (Z.to_nat mss) contents))
    as [net1| | |]; try reflexivity.
  rewrite file_segments_length. cbn [send_all].
  replace (0 + Z.of_nat count + 1) with (0 + Z.of_nat (S count)) by lia.
  assert (Hmark := sendPacket_prefix Net exchange retries numServers net1
                                     (0 + Z.of_nat (S count)) [] buffer').
  cbn [app length] in Hmark. cbn [length]. change (Z.of_nat 0) with 0 in *.
  rewrite Hmark by (unfold MAX_MSS; lia).
  destruct (sendPacket Net exchange retries numServers net1
                       (0 + Z.of_nat (S count)) [] 0);
    reflexivity.
Qed.

(* ------------------------------------------------------------------ *)
(** ** The sender and its receivers over lossy links *)

Section OverLinks.

Lemma data_packet_checks seq segment :
  is_data (data_packet seq segment) = true
  /\ checksum_ok (data_packet seq segment) = true.
Proof.
  split; [reflexivity|].
  unfold checksum_ok, data_packet. cbn [data hdr checksum].
  rewrite calculateChecksum_all, int16_checksum_spec.
  rewrite <- (wire_payload_length segment), firstn_all.
  now rewrite Z.eqb_refl.
Qed.

Lemma nonempty_length segment :
  (Z.of_nat (length (wire_payload segment)) =? 0) = negb (nonempty segment).
Proof.
  rewrite wire_payload_length. now destruct segment.
Qed.

(** A receiver that expects the segment: it drops it or accepts it. *)
Lemma deliver_expected p rand st seq segment :
  expectedSeqNum st = seq ->
  seq <> INT_MAX ->
  deliver p rand (Continue st) (data_packet seq segment)
  = if simulated_loss p rand then (Continue st, NoReply)
    else ((if nonempty segment
           then Continue (accept st (data_packet seq segment))
           else Break (accept st (data_packet seq segment))),
          Replied (ack_for seq)).
Proof.
  intros Hexp Hmax. unfold deliver.
  destruct (data_packet_checks seq segment) as [Hdata Hsum].
  rewrite loop_body_datagram, Hdata, Hsum. cbn [negb].
  destruct (simulated_loss p rand).
  - cbn [session_of]. now rewrite Nat.ltb_irrefl.
  - change (seqNum (hdr (data_packet seq segment))) with seq.
    rewrite Hexp, Z.eqb_refl.
    destruct (Z.eqb_spec seq INT_MAX); [contradiction|].
    rewrite end_of_body_session.
    cbn [accept sent]. rewrite length_app, last_last. cbn [length].
    replace (length (sent st) <? length (sent st) + 1)%nat with true
      by (symmetry; apply Nat.ltb_lt; lia).
    unfold end_of_body. cbn [data data_packet].
    rewrite nonempty_length, Hexp.
    now destruct (nonempty segment).
Qed.

(** A receiver that has accepted the segment and gets it again: it drops
    it or acknowledges it again, and writes nothing. *)
Lemma deliver_again p rand st seq segment :
  expectedSeqNum st = seq + 1 ->
  lastSeqNum st = seq ->
  nonempty segment = true ->
  deliver p rand (Continue st) (data_packet seq segment)
  = if simulated_loss p rand then (Continue st, NoReply)
    else (Continue (reack st), Replied (ack_for seq)).
Proof.
  intros Hexp Hlast Hne. unfold deliver.
  destruct (data_packet_checks seq segment) as [Hdata Hsum].
  rewrite loop_body_datagram, Hdata, Hsum. cbn [negb].
  destruct (simulated_loss p rand).
  - cbn [session_of]. now rewrite Nat.ltb_irrefl.
  - change (seqNum (hdr (data_packet seq segment))) with seq.
    rewrite Hexp.
    destruct (Z.eqb_spec seq (seq + 1)); [lia|].
    rewrite end_of_body_session.
    cbn [reack sent]. rewrite length_app, last_last. cbn [length].
    replace (length (sent st) <? length (sent st) + 1)%nat with true
      by (symmetry; apply Nat.ltb_lt; lia).
    unfold end_of_body. cbn [data data_packet].
    rewrite nonempty_length, Hne, Hlast. reflexivity.
Qed.

Variables (seq : Z) (segment written : list byte).
Hypothesis seq_range : seq <> INT_MAX.

(** The receiver of the link has not accepted the segment yet. *)
Let pending : Link -> Prop := link_at true seq written.

(** The receiver of the link has accepted the segment. *)
Let accepted : Link -> Prop :=
  link_at (nonempty segment) (seq + 1) (written ++ wire_payload segment).

Lemma over_link_step link link' reply :
  over_link link (data_packet seq segment) = (link', reply) ->
  (pending link ->
   (pending link' /\ reply = NoReply)
   \/ (accepted link' /\ (reply = NoReply \/ reply = Replied (ack_for seq))))
  /\ (accepted link ->
      accepted link' /\ (reply = NoReply \/ reply = Replied (ack_for seq))).
Proof.
  unfold over_link, pending, accepted, link_at.
  destruct link as [p transits peer]. cbn [link_transits link_loss link_peer].
  destruct transits as [|[|rand back] later].
  - intros [= <- <-]. cbn [link_peer]. split; intros H; [left|]; auto.
  - intros [= <- <-]. cbn [link_peer]. split; intros H; [left|]; auto.
  - split.
    + intros (st & Hpeer & Hexp & Hlast & Hfile). subst peer.
      rewrite (deliver_expected p rand st seq segment Hexp seq_range) in H.
      destruct (simulated_loss p rand).
      * injection H as <- <-. left. split; [|now destruct back].
        exists st. cbn [link_peer]. auto.
      * injection H as <- <-. right. split; [|destruct back; auto].
        exists (accept st (data_packet seq segment)). cbn [link_peer].
        split; [reflexivity|]. cbn [accept expectedSeqNum lastSeqNum file data data_packet].
        rewrite Hexp, Hfile. repeat split; lia.
    + intros (st & Hpeer & Hexp & Hlast & Hfile). subst peer.
      destruct (nonempty segment) eqn:Hne.
      * rewrite (deliver_again p rand st seq segment Hexp) in H by (assumption || lia).
        destruct (simulated_loss p rand); injection H as <- <-.
        -- split; [|destruct back; auto]. exists st. cbn [link_peer]. auto.
        -- split; [|destruct back; auto]. exists (reack st). cbn [link_peer]. auto.
      * cbn [deliver] in H. injection H as <- <-.
        split; [|destruct back; auto]. exists st. cbn [link_peer]. auto.
Qed.

Lemma over_links_at done :
  forall link todo packet,
    over_links (done ++ link :: todo) (length done) packet
    = (done ++ fst (over_link link packet) :: todo, snd (over_link link packet)).
Proof.
  induction done as [|first done IH]; intros link todo packet.
  - cbn [app length over_links]. now destruct (over_link link packet).
  - cbn [app length over_links]. now rewrite IH.
Qed.

(** The retry loop for one server leaves only once its receiver has
    accepted the segment. *)
Lemma await_ack_accepts done todo retries :
  forall link net',
    pending link \/ accepted link ->
    await_ack Links over_links retries (done ++ link :: todo) (length done)
              (data_packet seq segment) seq
    = Some net' ->
    exists link', net' = done ++ link' :: todo /\ accepted link'.
Proof.
  induction retries as [|retries IH]; intros link net' Hlink Hrun;
    [discriminate|].
  cbn [await_ack] in Hrun. rewrite over_links_at in Hrun.
  destruct (over_link link (data_packet seq segment)) as [link' reply] eqn:Hstep.
  cbn [fst snd] in Hrun.
  destruct (over_link_step _ _ _ Hstep) as [Hpend Hacc].
  assert (Hnext : (pending link' /\ reply = NoReply)
                  \/ (accepted link'
                      /\ (reply = NoReply \/ reply = Replied (ack_for seq)))).
  { destruct Hlink as [H|H]; [now apply Hpend | right; now apply Hacc]. }
  destruct Hnext as [[Hp ->] | [Ha [-> | ->]]].
  - apply (IH link'); auto.
  - apply (IH link'); auto.
  - cbn [seqNum ack_for] in Hrun. rewrite Z.eqb_refl in Hrun.
    injection Hrun as <-. eauto.
Qed.

(** The loop over the servers leaves only once every receiver has
    accepted the segment. *)
Lemma each_server_accepts retries todo :
  forall done net',
    Forall accepted done ->
    Forall pending todo ->
    each_server Links over_links retries (done ++ todo) (length done) (length todo)
                (data_packet seq segment) seq
    = Some net' ->
    Forall accepted net'.
Proof.
  induction todo as [|link todo IH]; intros done net' Hdone Htodo Hrun.
  - cbn [each_server length] in Hrun. injection Hrun as <-.
    now rewrite app_nil_r.
  - cbn [each_server length] in Hrun.
    destruct (await_ack Links over_links retries (done ++ link :: todo) (length done)
                        (data_packet seq segment) seq) as [net1|] eqn:Hwait;
      [|discriminate].
    inversion Htodo as [|? ? Hlink Hrest]; subst.
    destruct (await_ack_accepts done todo retries link net1 (or_introl Hlink) Hwait)
      as (link' & -> & Hacc).
    replace (done ++ link' :: todo) with ((done ++ [link']) ++ todo) in Hrun
      by (rewrite <- app_assoc; reflexivity).
    replace (S (length done)) with (length (done ++ [link'])) in Hrun
      by (rewrite length_app; simpl; lia).
    apply (IH (done ++ [link'])); auto.
    apply Forall_app. split; auto.
Qed.

(** One call of [sendPacket]: it does not leave its arrays, and it
    returns only once every receiver has accepted the segment. *)
Lemma sendPacket_accepts retries net :
  Z.of_nat (length segment) < MAX_MSS ->
  Forall pending net ->
  match sendPacket Links over_links retries (length net) net seq segment
                   (Z.of_nat (length segment)) with
  | Done net' => Forall accepted net' /\ length net' = length net
  | Stalled => True
  | ShortRead => False
  | Faulty => False
  end.
Proof.
  intros Hlen Hnet. unfold sendPacket.
  pose proof (frame_segment seq segment [] Hlen) as Hframe.
  rewrite app_nil_r in Hframe. rewrite Hframe.
  destruct (each_server Links over_links retries net 0 (length net)
                        (data_packet seq segment) seq) as [net'|] eqn:Hrun;
    [|exact I].
  split.
  - apply (each_server_accepts retries net [] net'); auto.
  - clear Hnet.
    assert (Hlength : forall retries' (l : Links) k m packet sq l',
               each_server Links over_links retries' l k m packet sq = Some l' ->
               length l' = length l).
    { assert (Hx : forall (l : Links) k packet,
                 length (fst (over_links l k packet)) = length l).
      { induction l as [|a l IHl]; intros [|k] packet; cbn [over_links];
          try reflexivity.
        - destruct (over_link a packet). reflexivity.
        - specialize (IHl k packet).
          destruct (over_links l k packet). cbn [fst length] in *. lia. }
      assert (Hw : forall retries' (l : Links) k packet sq l',
                 await_ack Links over_links retries' l k packet sq = Some l' ->
                 length l' = length l).
      { induction retries' as [|r IHr]; intros l k packet sq l' H;
          [discriminate|].
        cbn [await_ack] in H. specialize (Hx l k packet).
        destruct (over_links l k packet) as [l1 reply]. cbn [fst] in Hx.
        destruct reply as [|ack].
        - apply IHr in H. lia.
        - destruct (seqNum ack =? sq); [injection H as <-; lia|].
          destruct (seqNum ack =? INVALID_SEQ_NO); [injection H as <-; lia|].
          apply IHr in H. lia. }
      intros retries' l k m. revert l k.
      induction m as [|m IHm]; intros l k packet sq l' H; cbn [each_server] in H.
      - now injection H as <-.
      - destruct (await_ack Links over_links retries' l k packet sq) as [l1|] eqn:E;
          [|discriminate].
        apply Hw in E. apply IHm in H. lia. }
    now apply Hlength in Hrun.
Qed.

End OverLinks.

Section WholeFile.

Variable retries : nat.

Lemma link_at_fresh link : fresh link -> link_at true 0 [] link.
Proof. intros H. exists initial. rewrite H. repeat split. Qed.

(** Segments with bytes, one after the other: when the calls return,
    every receiver is still in its loop and has written all of them. *)
Lemma send_all_running segments :
  forall net seq written,
    Forall (fun segment => nonempty segment = true
                           /\ Z.of_nat (length segment) < MAX_MSS) segments ->
    seq + Z.of_nat (length segments) < INT_MAX ->
    Forall (link_at true seq written) net ->
    match send_all Links over_links retries (length net) net seq segments with
    | Done net' =>
        Forall (link_at true (seq + Z.of_nat (length segments))
                        (written ++ concat (map wire_payload segments))) net'
        /\ length net' = length net
    | Stalled => True
    | ShortRead => False
    | Faulty => False
    end.
Proof.
  induction segments as [|segment segments IH]; intros net seq written Hsegs Hseq Hnet.
  - cbn [send_all length map concat]. rewrite Z.add_0_r, app_nil_r. auto.
  - inversion Hsegs as [|? ? [Hne Hlen] Hrest]; subst.
    cbn [send_all]. cbn [length] in Hseq.
    pose proof (sendPacket_accepts seq segment written ltac:(lia) retries net Hlen Hnet)
      as Hsend.
    destruct (sendPacket Links over_links retries (length net) net seq segment
                         (Z.of_nat (length segment))) as [net1| | |];
      try assumption.
    destruct Hsend as [Hacc Hlength]. rewrite Hne in Hacc.
    specialize (IH net1 (seq + 1) (written ++ wire_payload segment) Hrest
                   ltac:(lia) Hacc).
    rewrite Hlength in IH.
    destruct (send_all Links over_links retries (length net) net1 (seq + 1) segments);
      try assumption.
    destruct IH as [Hall Hl]. split; [|lia].
    cbn [length map concat]. rewrite app_assoc.
    replace (seq + Z.of_nat (S (length segments)))
      with (seq + 1 + Z.of_nat (length segments)) by lia.
    exact Hall.
Qed.

(** A receiver that has left its loop answers nothing: the retry loop
    for it does not end. *)
Lemma await_ack_finished packet seq todo :
  forall link,
    (exists st, link_peer link = Break st) ->
    await_ack Links over_links retries (link :: todo) 0 packet seq = None.
Proof.
  induction retries as [|r IH]; intros link [st Hpeer]; [reflexivity|].
  cbn [await_ack over_links]. unfold over_link.
  destruct link as [p transits peer]. cbn [link_transits link_loss link_peer] in *.
  subst peer.
  destruct transits as [|[|rand back] later].
  - apply IH. exists st. reflexivity.
  - apply IH. exists st. reflexivity.
  - cbn [deliver]. replace (if back then NoReply else NoReply) with NoReply
      by now destruct back.
    apply IH. exists st. reflexivity.
Qed.

(** The segments of a file, the last one possibly empty, and the end
    marker. *)
Lemma send_all_file fulls rest :
  forall net seq written,
    Forall (fun segment => nonempty segment = true
                           /\ Z.of_nat (length segment) < MAX_MSS) fulls ->
    Z.of_nat (length rest) < MAX_MSS ->
    seq + Z.of_nat (length fulls) + 2 < INT_MAX ->
    Forall (link_at true seq written) net ->
    match send_all Links over_links retries (length net) net seq
                   (fulls ++ [rest; []]) with
    | Done net' =>
        (nonempty rest = true \/ net = [])
        /\ Forall (finished_with
                     (written ++ concat (map wire_payload (fulls ++ [rest])))) net'
    | Stalled => True
    | ShortRead => False
    | Faulty => False
    end.
Proof.
  intros net seq written Hfulls Hrest Hseq Hnet.
  rewrite send_all_app.
  pose proof (send_all_running fulls net seq written Hfulls ltac:(lia) Hnet) as Hrun.
  destruct (send_all Links over_links retries (length net) net seq fulls)
    as [net1| | |]; try assumption.
  destruct Hrun as [Hnet1 Hlen1].
  set (seq1 := seq + Z.of_nat (length fulls)) in *.
  set (written1 := written ++ concat (map wire_payload fulls)) in *.
  cbn [send_all].
  pose proof (sendPacket_accepts seq1 rest written1 ltac:(lia) retries net1 Hrest Hnet1)
    as Hsend.
  rewrite Hlen1 in Hsend.
  destruct (sendPacket Links over_links retries (length net) net1 seq1 rest
                       (Z.of_nat (length rest))) as [net2| | |];
    try assumption.
  destruct Hsend as [Hnet2 Hlen2].
  assert (Hwritten : written ++ concat (map wire_payload (fulls ++ [rest]))
                     = written1 ++ wire_payload rest).
  { unfold written1. rewrite map_app, concat_app. cbn [map concat].
    now rewrite app_nil_r, app_assoc. }
  rewrite Hwritten.
  destruct (nonempty rest) eqn:Hne.
  - pose proof (sendPacket_accepts (seq1 + 1) [] (written1 ++ wire_payload rest)
                                   ltac:(lia) retries net2
                                   ltac:(unfold MAX_MSS; simpl; lia) Hnet2) as Hmark.
    rewrite Hlen2 in Hmark. cbn [length] in Hmark.
    cbn [length]. change (Z.of_nat 0) with 0 in *.
    destruct (sendPacket Links over_links retries (length net) net2 (seq1 + 1) [] 0)
      as [net3| | |]; try assumption.
    destruct Hmark as [Hnet3 _]. split; [now left|].
    eapply Forall_impl; [|exact Hnet3].
    intros link (st & Hpeer & _ & _ & Hfile). cbn [nonempty] in Hpeer.
    exists st. split; [assumption|].
    rewrite Hfile. cbn [wire_payload strncpy length]. now rewrite app_nil_r.
  - cbn [length]. change (Z.of_nat 0) with 0.
    destruct net2 as [|link net2].
    + assert (net = []) by (apply length_zero_iff_nil; simpl in *; lia).
      subst net. cbn [length sendPacket each_server].
      unfold sendPacket. change (frame (seq1 + 1) [] 0)
        with (Some (data_packet (seq1 + 1) [])).
      cbn [each_server]. split; [now right|constructor].
    + unfold sendPacket. change (frame (seq1 + 1) [] 0)
        with (Some (data_packet (seq1 + 1) [])).
      rewrite <- Hlen2. cbn [length each_server].
      rewrite await_ack_finished; [exact I|].
      inversion Hnet2 as [|? ? (st & Hpeer & _) _]; subst.
      exists st. exact Hpeer.
Qed.

(** The segments of [main]: segments of [mss] bytes and what is left. *)
Lemma file_segments_split count mss :
  forall unread,
    (count * mss <= length unread)%nat ->
    exists fulls rest,
      file_segments count mss unread = fulls ++ [rest]
      /\ Forall (fun segment => length segment = mss) fulls
      /\ length fulls = count
      /\ length rest = (length unread - count * mss)%nat.
Proof.
  induction count as [|count IH]; intros unread Hlen.
  - exists [], unread. cbn [file_segments app]. repeat split; [constructor|lia].
  - cbn [file_segments].
    destruct (IH (skipn mss unread)) as (fulls & rest & Heq & Hall & Hcount & Hrest).
    { rewrite length_skipn. simpl in Hlen. lia. }
    exists (firstn mss unread :: fulls), rest.
    rewrite Heq. cbn [app length]. repeat split.
    + constructor; [|assumption]. rewrite length_firstn. simpl in Hlen. lia.
    + lia.
    + rewrite Hrest, length_skipn. simpl. lia.
Qed.

(** Without NUL bytes the payloads are the segments. *)
Lemma wire_payload_without_nul segment :
  ~ In x00 segment -> wire_payload segment = segment.
Proof.
  intros Hnul. unfold wire_payload.
  rewrite strncpy_without_nul; rewrite ?firstn_all; auto.
Qed.

Lemma wire_payloads_without_nul segments :
  ~ In x00 (concat segments) ->
  concat (map wire_payload segments) = concat segments.
Proof.
  induction segments as [|segment segments IH]; intros Hnul; [reflexivity|].
  cbn [map concat] in *. rewrite in_app_iff in Hnul.
  rewrite wire_payload_without_nul, IH; tauto.
Qed.

(** [main] against receivers just started, over links that lose what
    they lose. *)
Lemma main_over_links net contents mss buffer :
  0 < mss < MAX_MSS ->
  Z.of_nat (length contents) + 2 < INT_MAX ->
  Z.of_nat (length net) <= MAX_SERVERS ->
  Forall fresh net ->
  match main Links over_links retries (length net) net contents mss buffer with
  | Done net' =>
      (Z.of_nat (length contents) mod mss <> 0 \/ net = [])
      /\ Forall (finished_with
                   (concat (map wire_payload
                                (file_segments
                                   (Z.to_nat (Z.of_nat (length contents) / mss))
                                   (Z.to_nat mss) contents)))) net'
  | Stalled => True
  | ShortRead => False
  | Faulty => False
  end.
Proof.
  intros Hmss Hlen Hservers Hfresh.
  rewrite main_as_calls by (assumption || lia).
  set (L := Z.of_nat (length contents)) in *.
  assert (HL : 0 <= L) by (unfold L; lia).
  assert (Hdiv : 0 <= L / mss) by (apply Z.div_pos; lia).
  pose proof (Z.div_mod L mss ltac:(lia)) as Hdm.
  pose proof (Z.mod_pos_bound L mss ltac:(lia)) as Hmod.
  set (count := Z.to_nat (L / mss)).
  destruct (file_segments_split count (Z.to_nat mss) contents)
    as (fulls & rest & Heq & Hall & Hcount & Hrest).
  { unfold count. fold L. nia. }
  rewrite Heq, <- app_assoc. cbn [app].
  assert (Hrest' : Z.of_nat (length rest) = L mod mss).
  { rewrite Hrest. unfold count. fold L. nia. }
  pose proof (send_all_file fulls rest net 0 []) as Hsend.
  destruct (send_all Links over_links retries (length net) net 0 (fulls ++ [rest; []]))
    as [net'| | |].
  - destruct Hsend as [Hne Hfin].
    + eapply Forall_impl; [|exact Hall].
      intros segment Hs. cbv beta in Hs. unfold MAX_MSS in *.
      split; [destruct segment; [simpl in Hs; lia | reflexivity] | lia].
    + unfold MAX_MSS in *. lia.
    + rewrite Hcount. unfold count, INT_MAX in *.
      assert (L / mss <= L) by (apply Z.div_le_upper_bound; nia). lia.
    + eapply Forall_impl; [|exact Hfresh]. intros link. apply link_at_fresh.
    + split; [|exact Hfin].
      destruct Hne as [Hne | Hne]; [left | now right].
      destruct rest; [discriminate|]. rewrite <- Hrest'. simpl. lia.
  - exact I.
  - apply Hsend.
    + eapply Forall_impl; [|exact Hall].
      intros segment Hs. cbv beta in Hs. unfold MAX_MSS in *.
      split; [destruct segment; [simpl in Hs; lia | reflexivity] | lia].
    + unfold MAX_MSS in *. lia.
    + rewrite Hcount. unfold count, INT_MAX in *.
      assert (L / mss <= L) by (apply Z.div_le_upper_bound; nia). lia.
    + eapply Forall_impl; [|exact Hfresh]. intros link. apply link_at_fresh.
  - apply Hsend.
    + eapply Forall_impl; [|exact Hall].
      intros segment Hs. cbv beta in Hs. unfold MAX_MSS in *.
      split; [destruct segment; [simpl in Hs; lia | reflexivity] | lia].
    + unfold MAX_MSS in *. lia.
    + rewrite Hcount. unfold count, INT_MAX in *.
      assert (L / mss <= L) by (apply Z.div_le_upper_bound; nia). lia.
    + eapply Forall_impl; [|exact Hfresh]. intros link. apply link_at_fresh.
Qed.

End WholeFile.

(** X10.  Stop-and-wait delivers the whole file or does not return.  The
    sender runs against receivers just started, over links that lose
    datagrams and acknowledgements in any pattern, each receiver
    dropping by its own draws.  If [main] returns, every receiver has
    left its loop with [break] and its file is the concatenation of the
    payloads framed for the segments of the source file, in order; when
    the source file has no NUL byte, that is the source file itself. *)
Theorem complete_file_when_sender_returns
        (retries : nat) (net : Links) (contents : list byte) (mss : Z)
        (buffer : list byte) (net' : Links) :
  0 < mss < MAX_MSS ->
  Z.of_nat (length contents) + 2 < INT_MAX ->
  Z.of_nat (length net) <= MAX_SERVERS ->
  Forall fresh net ->
  main Links over_links retries (length net) net contents mss buffer = Done net' ->
  Forall (finished_with
            (concat (map wire_payload
                         (file_segments (Z.to_nat (Z.of_nat (length contents) / mss))
                                        (Z.to_nat mss) contents)))) net'
  /\ (~ In x00 contents -> Forall (finished_with contents) net').
Proof.
  intros Hmss Hlen Hservers Hfresh Hrun.
  pose proof (main_over_links retries net contents mss buffer
                              Hmss Hlen Hservers Hfresh) as Hall.
  rewrite Hrun in Hall. destruct Hall as [_ Hfin].
  split; [exact Hfin|].
  intros Hnul. rewrite wire_payloads_without_nul in Hfin;
    rewrite file_segments_concat in *; assumption.
Qed.

Lemma complete_file_when_sender_returns_witness :
  exists net',
    main Links over_links 5 (length two_links) two_links three_byte_file 2 blank_buffer
    = Done net'
    /\ Forall (finished_with three_byte_file) net'.
Proof.
  eexists. split; [vm_compute; reflexivity|].
  apply (complete_file_when_sender_returns 5 two_links three_byte_file 2 blank_buffer).
  - unfold MAX_MSS. lia.
  - unfold INT_MAX. simpl. lia.
  - unfold MAX_SERVERS. simpl. lia.
  - repeat constructor.
  - vm_compute. reflexivity.
  - simpl. intros [H|[H|[H|H]]]; try discriminate. contradiction.
Defined.

(** X11.  When the maximum segment size divides the length of the file
    (an empty file included) and there is at least one receiver, [main]
    never returns, whatever the links lose and however many
    retransmissions are looked at: the sender is left retransmitting. *)
Theorem exact_multiple_never_returns
        (retries : nat) (net : Links) (contents : list byte) (mss : Z)
        (buffer : list byte) :
  0 < mss < MAX_MSS ->
  Z.of_nat (length contents) + 2 < INT_MAX ->
  Z.of_nat (length net) <= MAX_SERVERS ->
  Forall fresh net ->
  net <> [] ->
  Z.of_nat (length contents) mod mss = 0 ->
  main Links over_links retries (length net) net contents mss buffer = Stalled.
Proof.
  intros Hmss Hlen Hservers Hfresh Hnet Hdiv.
  pose proof (main_over_links retries net contents mss buffer
                              Hmss Hlen Hservers Hfresh) as Hall.
  destruct (main Links over_links retries (length net) net contents mss buffer);
    try contradiction; [|reflexivity].
  destruct Hall as [[H|H] _]; contradiction.
Qed.

Lemma exact_multiple_never_returns_witness :
  main Links over_links 7 (length one_link) one_link two_byte_file 2 blank_buffer
  = Stalled.
Proof.
  apply (exact_multiple_never_returns 7 one_link two_byte_file 2 blank_buffer).
  - unfold MAX_MSS. lia.
  - unfold INT_MAX. simpl. lia.
  - unfold MAX_SERVERS. simpl. lia.
  - repeat constructor.
  - discriminate.
  - reflexivity.
Defined.

(** X12.  A receiver started late makes the sender give the segment up.
    A segment with a number other than 0, sent to a receiver that has
    accepted nothing and whose loss draw lets it pass, is answered with
    an acknowledgement whose sequence number field is [INVALID_SEQ_NO];
    [sendPacket] returns after that one transmission, and the receiver has
    written nothing and still expects segment 0. *)
Theorem late_receiver_makes_sender_skip
        (packetLossProb : float) (rand : Z) (retries : nat)
        (segmentNum : Z) (segment : list byte) :
  simulated_loss packetLossProb rand = false ->
  Z.of_nat (length segment) < MAX_MSS ->
  segmentNum <> 0 ->
  exists peer st,
    sendPacket Receivers (to_receiver packetLossProb rand) (S retries) 1
               [Continue initial] segmentNum segment (Z.of_nat (length segment))
    = Done [peer]
    /\ session_of peer = Some st
    /\ sent st = [{| seqNum := INVALID_SEQ_NO; checksum := 0; type := int16 ACK_PKT |}]
    /\ file st = []
    /\ expectedSeqNum st = 0.
Proof.
  intros Hloss Hlen Hseq.
  exists (if nonempty segment then Continue (reack initial) else Break (reack initial)),
         (reack initial).
  split; [|now destruct (nonempty segment)].
  unfold sendPacket.
  pose proof (frame_segment segmentNum segment [] Hlen) as Hframe.
  rewrite app_nil_r in Hframe. rewrite Hframe.
  cbn [each_server await_ack to_receiver].
  assert (Hdeliver :
            deliver packetLossProb rand (Continue initial) (data_packet segmentNum segment)
            = ((if nonempty segment then Continue (reack initial)
                else Break (reack initial)),
               Replied (ack_for INVALID_SEQ_NO))).
  { unfold deliver.
    destruct (data_packet_checks segmentNum segment) as [Hdata Hsum].
    rewrite loop_body_datagram, Hdata, Hsum, Hloss. cbn [negb].
    change (seqNum (hdr (data_packet segmentNum segment))) with segmentNum.
    change (expectedSeqNum initial) with 0.
    destruct (Z.eqb_spec segmentNum 0); [contradiction|].
    rewrite end_of_body_session.
    unfold end_of_body. cbn [data data_packet].
    rewrite nonempty_length.
    now destruct (nonempty segment). }
  rewrite Hdeliver. cbn [seqNum ack_for].
  destruct (INVALID_SEQ_NO =? segmentNum); reflexivity.
Qed.

Lemma late_receiver_makes_sender_skip_witness :
  exists peer st,
    sendPacket Receivers (to_receiver 0%float 50) (S 0) 1
               [Continue initial] 4 three_byte_file
               (Z.of_nat (length three_byte_file))
    = Done [peer]
    /\ session_of peer = Some st
    /\ sent st = [{| seqNum := INVALID_SEQ_NO; checksum := 0; type := int16 ACK_PKT |}]
    /\ file st = []
    /\ expectedSeqNum st = 0.
Proof.
  apply (late_receiver_makes_sender_skip 0%float 50 0 4 three_byte_file).
  - vm_compute. reflexivity.
  - unfold MAX_MSS. simpl. lia.
  - lia.
Defined.

(* ------------------------------------------------------------------ *)
(** ** More on the receiver *)

Section ReceiverRuns.

Variable packetLossProb : float.

Lemma receive_loop_app before :
  forall st after,
    receive_loop packetLossProb st (before ++ after)
    = match receive_loop packetLossProb st before with
      | Continue st' => receive_loop packetLossProb st' after
      | out => out
      end.
Proof.
  induction before as [|[received rand] before IH]; intros st after.
  - reflexivity.
  - cbn [app receive_loop].
    destruct (loop_body packetLossProb st received rand); try reflexivity.
    apply IH.
Qed.

Lemma loop_body_exit st received rand st' :
  loop_body packetLossProb st received rand = Exit st'
  <-> st' = st
      /\ (received = RecvFailed
          \/ exists pkt, received = Datagram pkt /\ is_data pkt = false).
Proof.
  destruct received as [|pkt].
  - cbn [loop_body]. split.
    + intros [= <-]. auto.
    + intros [-> _]. reflexivity.
  - rewrite loop_body_datagram. destruct (is_data pkt) eqn:Hdata; cbn [negb].
    + split.
      * intros H. exfalso.
        destruct (negb (checksum_ok pkt)); [discriminate|].
        destruct (simulated_loss packetLossProb rand); [discriminate|].
        unfold end_of_body in H.
        destruct (seqNum (hdr pkt) =? expectedSeqNum st);
          [destruct (expectedSeqNum st =? INT_MAX); [discriminate|]|];
          destruct (Z.of_nat (length (data pkt)) =? 0); discriminate.
      * intros [_ [H | (pkt' & [= <-] & H)]]; [discriminate|].
        rewrite Hdata in H. discriminate.
    + split.
      * intros [= <-]. split; [reflexivity|]. right. eauto.
      * intros [-> _]. reflexivity.
Qed.

Lemma receive_loop_exit arrivals :
  forall st st',
    receive_loop packetLossProb st arrivals = Exit st' ->
    exists before received rand after,
      arrivals = before ++ (received, rand) :: after
      /\ receive_loop packetLossProb st before = Continue st'
      /\ (received = RecvFailed
          \/ exists pkt, received = Datagram pkt /\ is_data pkt = false).
Proof.
  induction arrivals as [|[received rand] rest IH]; intros st st' Hrun.
  - discriminate.
  - cbn [receive_loop] in Hrun.
    destruct (loop_body packetLossProb st received rand) as [st1|st1|st1|] eqn:E;
      try discriminate.
    + destruct (IH _ _ Hrun) as (before & rc & r & after & -> & Hb & Hbad).
      exists ((received, rand) :: before), rc, r, after.
      repeat split; [|assumption].
      cbn [receive_loop]. now rewrite E.
    + injection Hrun as <-. apply loop_body_exit in E. destruct E as [-> Hbad].
      exists [], received, rand, rest. repeat split. assumption.
Qed.

(** What a run appends: acknowledgements to [sent], bytes to [file]. *)
Lemma receive_loop_appends arrivals :
  forall st st',
    session_of (receive_loop packetLossProb st arrivals) = Some st' ->
    exists acks bytes,
      sent st' = sent st ++ acks
      /\ file st' = file st ++ bytes
      /\ (length acks <= length arrivals)%nat
      /\ Forall (fun ack => type ack = int16 ACK_PKT /\ checksum ack = 0) acks.
Proof.
  assert (Hstep : forall st received rand st1,
             session_of (loop_body packetLossProb st received rand) = Some st1 ->
             exists acks bytes,
               sent st1 = sent st ++ acks
               /\ file st1 = file st ++ bytes
               /\ (length acks <= 1)%nat
               /\ Forall (fun ack => type ack = int16 ACK_PKT /\ checksum ack = 0) acks).
  { intros st received rand st1 H1.
    destruct (loop_body_session _ _ _ _ _ H1) as [Hsame | [Hacc | Hre]].
    - subst st1. exists [], []. rewrite !app_nil_r. repeat split; auto.
    - destruct Hacc as (pkt & _ & _ & _ & ->).
      exists [ack_for (expectedSeqNum st)], (data pkt). cbn [accept sent file].
      repeat split; auto.
    - destruct Hre as (pkt & _ & _ & ->).
      exists [ack_for (lastSeqNum st)], []. cbn [reack sent file].
      rewrite app_nil_r. repeat split; auto. }
  induction arrivals as [|[received rand] rest IH]; intros st st' Hrun.
  - cbn [receive_loop session_of] in Hrun. injection Hrun as <-.
    exists [], []. rewrite !app_nil_r. repeat split; auto.
  - cbn [receive_loop] in Hrun.
    destruct (loop_body packetLossProb st received rand) as [st1|st1|st1|] eqn:E;
      try discriminate.
    + destruct (Hstep st received rand st1) as (a1 & b1 & Hs1 & Hf1 & Hl1 & Ha1);
        [now rewrite E|].
      destruct (IH _ _ Hrun) as (a2 & b2 & Hs2 & Hf2 & Hl2 & Ha2).
      exists (a1 ++ a2), (b1 ++ b2).
      rewrite Hs2, Hs1, Hf2, Hf1, !app_assoc, length_app. cbn [length].
      repeat split; [lia|]. apply Forall_app. auto.
    + destruct (Hstep st received rand st1) as (a1 & b1 & Hs1 & Hf1 & Hl1 & Ha1);
        [now rewrite E|].
      injection Hrun as <-. exists a1, b1. cbn [length]. repeat split; auto. lia.
    + destruct (Hstep st received rand st1) as (a1 & b1 & Hs1 & Hf1 & Hl1 & Ha1);
        [now rewrite E|].
      injection Hrun as <-. exists a1, b1. cbn [length]. repeat split; auto. lia.
Qed.

(** Copies of a packet that has been accepted: each one that passes the
    loss draw is acknowledged with its number again, none is written. *)
Lemma copies_after_acceptance pkt rands :
  forall st,
    is_data pkt = true ->
    checksum_ok pkt = true ->
    data pkt <> [] ->
    expectedSeqNum st = seqNum (hdr pkt) + 1 ->
    lastSeqNum st = seqNum (hdr pkt) ->
    exists st',
      receive_loop packetLossProb st (map (fun rand => (Datagram pkt, rand)) rands)
      = Continue st'
      /\ file st' = file st
      /\ expectedSeqNum st' = expectedSeqNum st
      /\ sent st'
         = sent st
           ++ repeat (ack_for (seqNum (hdr pkt)))
                     (length (filter (fun rand => negb (simulated_loss packetLossProb rand))
                                     rands)).
Proof.
  induction rands as [|rand rands IH]; intros st Hdata Hsum Hne Hexp Hlast.
  - exists st. cbn [map receive_loop filter length repeat].
    rewrite app_nil_r. auto.
  - cbn [map receive_loop filter].
    rewrite loop_body_datagram, Hdata, Hsum. cbn [negb].
    destruct (simulated_loss packetLossProb rand); cbn [negb].
    + apply IH; assumption.
    + destruct (Z.eqb_spec (seqNum (hdr pkt)) (expectedSeqNum st)); [lia|].
      unfold end_of_body.
      destruct (Z.eqb_spec (Z.of_nat (length (data pkt))) 0) as [Hz|Hz].
      { exfalso. apply Hne. apply length_zero_iff_nil. lia. }
      destruct (IH (reack st) Hdata Hsum Hne Hexp Hlast)
        as (st' & Hrun & Hfile & Hexp' & Hsent).
      exists st'. split; [exact Hrun|]. split; [exact Hfile|]. split; [exact Hexp'|].
      rewrite Hsent. cbn [reack sent length repeat].
      rewrite Hlast, <- app_assoc. reflexivity.
Qed.

End ReceiverRuns.

(** X13.  The receiver survives no datagram that is not DATA.  A run of
    its loop ends with [exit(0)] exactly at the first [recvfrom] that
    fails or delivers a datagram whose type is not [DATA_PKT] (an
    acknowledgement, say): the process leaves in the session it had
    reached, with nothing acknowledged or written for that datagram, and
    whatever arrives later is not looked at. *)
Theorem receiver_exits_at_first_other_datagram
        (packetLossProb : float) (st : Session)
        (arrivals : list (Received * Z)) (st' : Session) :
  receive_loop packetLossProb st arrivals = Exit st'
  <->
  exists before received rand after,
    arrivals = before ++ (received, rand) :: after
    /\ receive_loop packetLossProb st before = Continue st'
    /\ (received = RecvFailed
        \/ exists pkt, received = Datagram pkt /\ is_data pkt = false).
Proof.
  split.
  - apply receive_loop_exit.
  - intros (before & received & rand & after & -> & Hbefore & Hbad).
    rewrite receive_loop_app, Hbefore. cbn [receive_loop].
    assert (Hexit : loop_body packetLossProb st' received rand = Exit st')
      by (apply loop_body_exit; auto).
    now rewrite Hexit.
Qed.

(** X14.  The receiver only appends.  Over any run of its loop the bytes
    in the output file and the acknowledgements sent before the run stay
    where they are; the run sends at most one acknowledgement per
    datagram received, each of type [ACK_PKT] with checksum field 0. *)
Theorem receiver_only_appends
        (packetLossProb : float) (st : Session)
        (arrivals : list (Received * Z)) (st' : Session) :
  session_of (receive_loop packetLossProb st arrivals) = Some st' ->
  exists acks bytes,
    sent st' = sent st ++ acks
    /\ file st' = file st ++ bytes
    /\ (length acks <= length arrivals)%nat
    /\ Forall (fun ack => type ack = int16 ACK_PKT /\ checksum ack = 0) acks.
Proof. apply receive_loop_appends. Qed.

Lemma receiver_only_appends_witness :
  exists acks bytes,
    sent (accept initial first_packet) = sent initial ++ acks
    /\ file (accept initial first_packet) = file initial ++ bytes
    /\ (length acks <= length [(Datagram first_packet, 50)])%nat
    /\ Forall (fun ack => type ack = int16 ACK_PKT /\ checksum ack = 0) acks.
Proof.
  apply (receiver_only_appends 0%float initial [(Datagram first_packet, 50)]
                               (accept initial first_packet)).
  vm_compute. reflexivity.
Defined.

(** X15.  A packet that is transmitted several times is written once.
    When copies of one well-formed, in-sequence packet with payload
    arrive one after the other, the payload is appended to the file once
    if any copy passes the loss draw and not at all otherwise; every copy
    that passes is answered with one acknowledgement whose sequence
    number field is the number of the packet, and the receiver stays in
    its loop. *)
Theorem retransmitted_packet_is_written_once
        (packetLossProb : float) (st : Session) (pkt : Packet) (rands : list Z) :
  is_data pkt = true ->
  checksum_ok pkt = true ->
  data pkt <> [] ->
  seqNum (hdr pkt) = expectedSeqNum st ->
  expectedSeqNum st <> INT_MAX ->
  exists st',
    receive_loop packetLossProb st (map (fun rand => (Datagram pkt, rand)) rands)
    = Continue st'
    /\ file st'
       = (if existsb (fun rand => negb (simulated_loss packetLossProb rand)) rands
          then file st ++ data pkt else file st)
    /\ sent st'
       = sent st
         ++ repeat {| seqNum := seqNum (hdr pkt); checksum := 0; type := int16 ACK_PKT |}
                   (length (filter (fun rand => negb (simulated_loss packetLossProb rand))
                                   rands)).
Proof.
  intros Hdata Hsum Hne Hseq Hmax. revert st Hseq Hmax.
  induction rands as [|rand rands IH]; intros st Hseq Hmax.
  - exists st. cbn [map receive_loop existsb filter length repeat].
    rewrite app_nil_r. auto.
  - cbn [map receive_loop existsb filter].
    rewrite loop_body_datagram, Hdata, Hsum. cbn [negb].
    destruct (simulated_loss packetLossProb rand); cbn [negb orb].
    + apply IH; assumption.
    + rewrite Hseq, Z.eqb_refl.
      destruct (Z.eqb_spec (expectedSeqNum st) INT_MAX); [contradiction|].
      unfold end_of_body.
      destruct (Z.eqb_spec (Z.of_nat (length (data pkt))) 0) as [Hz|Hz].
      { exfalso. apply Hne. apply length_zero_iff_nil. lia. }
      destruct (copies_after_acceptance packetLossProb pkt rands (accept st pkt))
        as (st' & Hrun & Hfile & _ & Hsent); try assumption.
      * cbn [accept expectedSeqNum]. lia.
      * cbn [accept lastSeqNum]. lia.
      * exists st'. split; [exact Hrun|]. split; [exact Hfile|].
        rewrite Hsent. cbn [accept sent length repeat].
        rewrite Hseq, <- app_assoc. reflexivity.
Qed.

Lemma retransmitted_packet_is_written_once_witness :
  exists st',
    receive_loop 0.5%float initial
                 (map (fun rand => (Datagram first_packet, rand)) [20; 60; 70])
    = Continue st'
    /\ file st'
       = (if existsb (fun rand => negb (simulated_loss 0.5%float rand)) [20; 60; 70]
          then file initial ++ data first_packet else file initial)
    /\ sent st'
       = sent initial
         ++ repeat {| seqNum := seqNum (hdr first_packet);
                      checksum := 0; type := int16 ACK_PKT |}
                   (length (filter (fun rand => negb (simulated_loss 0.5%float rand))
                                   [20; 60; 70])).
Proof.
  apply (retransmitted_packet_is_written_once 0.5%float initial first_packet [20; 60; 70]).
  - reflexivity.
  - reflexivity.
  - discriminate.
  - reflexivity.
  - unfold INT_MAX. simpl. lia.
Defined.

Example acknowledgement_ends_receiver :
  receive_loop 0%float initial
               [(Datagram stray_ack, 50); (Datagram first_packet, 50)]
  = Exit initial.
Proof. reflexivity. Qed.

Lemma sender_transmits_witness :
  main Recorded acknowledge_all 1 1 [] three_byte_file 2 blank_buffer
  = Done (numbered 0 (file_segments 1 2 three_byte_file ++ [[]]))
  /\ concat (file_segments 1 2 three_byte_file) = three_byte_file
  /\ length (file_segments 1 2 three_byte_file) = 2%nat
  /\ Z.of_nat (length (last (file_segments 1 2 three_byte_file) [])) = 3 mod 2.
Proof.
  apply (sender_transmits 0 three_byte_file 2 blank_buffer).
  - unfold MAX_MSS. lia.
  - unfold INT_MAX. simpl. lia.
Defined.

(* ------------------------------------------------------------------ *)
(** ** When nothing is lost *)

Section NothingLost.

Variable retries : nat.

Lemma over_link_clear seq segment written count link :
  seq <> INT_MAX ->
  link_at true seq written link ->
  clear_for (S count) link ->
  exists link',
    over_link link (data_packet seq segment) = (link', Replied (ack_for seq))
    /\ link_at (nonempty segment) (seq + 1) (written ++ wire_payload segment) link'
    /\ clear_for count link'.
Proof.
  intros Hseq (st & Hpeer & Hexp & Hlast & Hfile) Hclear.
  unfold over_link, clear_for in *.
  destruct link as [p transits peer]. cbn [link_transits link_loss link_peer] in *.
  subst peer.
  destruct transits as [|transit later]; [discriminate|].
  cbn [clear_run] in Hclear. apply andb_prop in Hclear. destruct Hclear as [Hpass Hrest].
  destruct transit as [|rand [|]]; try discriminate.
  cbn [passes] in Hpass. apply negb_true_iff in Hpass.
  rewrite (deliver_expected p rand st seq segment Hexp Hseq), Hpass.
  eexists. split; [reflexivity|]. split; [|exact Hrest].
  exists (accept st (data_packet seq segment)). cbn [link_peer].
  split; [reflexivity|].
  cbn [accept expectedSeqNum lastSeqNum file data data_packet].
  rewrite Hexp, Hfile. repeat split; lia.
Qed.

Lemma each_server_clear seq segment written count todo :
  forall done,
    seq <> INT_MAX ->
    Forall (link_at true seq written) todo ->
    Forall (clear_for (S count)) todo ->
    exists todo',
      each_server Links over_links (S retries) (done ++ todo) (length done)
                  (length todo) (data_packet seq segment) seq
      = Some (done ++ todo')
      /\ Forall (link_at (nonempty segment) (seq + 1)
                         (written ++ wire_payload segment)) todo'
      /\ Forall (clear_for count) todo'
      /\ length todo' = length todo.
Proof.
  induction todo as [|link todo IH]; intros done Hseq Hat Hclear.
  - exists []. cbn [each_server length]. repeat split; constructor.
  - inversion Hat as [|? ? Hlink Hrest]; subst.
    inversion Hclear as [|? ? Hc Hcs]; subst.
    destruct (over_link_clear seq segment written count link Hseq Hlink Hc)
      as (link' & Hstep & Hacc & Hclear').
    cbn [each_server length await_ack].
    rewrite over_links_at, Hstep. cbn [fst snd seqNum ack_for].
    rewrite Z.eqb_refl.
    destruct (IH (done ++ [link']) Hseq Hrest Hcs) as (todo' & Hrun & Hall & Hcl & Hlen).
    rewrite <- app_assoc, length_app in Hrun. cbn [app length] in Hrun.
    replace (length done + 1)%nat with (S (length done)) in Hrun by lia.
    exists (link' :: todo'). rewrite Hrun, <- app_assoc. cbn [app length].
    repeat split; auto.
Qed.

Lemma sendPacket_clear seq segment written count net :
  seq <> INT_MAX ->
  Z.of_nat (length segment) < MAX_MSS ->
  Forall (link_at true seq written) net ->
  Forall (clear_for (S count)) net ->
  exists net',
    sendPacket Links over_links (S retries) (length net) net seq segment
               (Z.of_nat (length segment))
    = Done net'
    /\ Forall (link_at (nonempty segment) (seq + 1)
                       (written ++ wire_payload segment)) net'
    /\ Forall (clear_for count) net'
    /\ length net' = length net.
Proof.
  intros Hseq Hlen Hat Hclear. unfold sendPacket.
  pose proof (frame_segment seq segment [] Hlen) as Hframe.
  rewrite app_nil_r in Hframe. rewrite Hframe.
  destruct (each_server_clear seq segment written count net [] Hseq Hat Hclear)
    as (net' & Hrun & Hall & Hcl & Hl).
  cbn [app length] in Hrun. rewrite Hrun. eauto.
Qed.

Lemma send_all_clear segments :
  forall net seq written count,
    Forall (fun segment => nonempty segment = true
                           /\ Z.of_nat (length segment) < MAX_MSS) segments ->
    seq + Z.of_nat (length segments) < INT_MAX ->
    Forall (link_at true seq written) net ->
    Forall (clear_for (length segments + count)) net ->
    exists net',
      send_all Links over_links (S retries) (length net) net seq segments = Done net'
      /\ Forall (link_at true (seq + Z.of_nat (length segments))
                         (written ++ concat (map wire_payload segments))) net'
      /\ Forall (clear_for count) net'
      /\ length net' = length net.
Proof.
  induction segments as [|segment segments IH];
    intros net seq written count Hsegs Hseq Hat Hclear.
  - exists net. cbn [send_all length map concat]. rewrite Z.add_0_r, app_nil_r. auto.
  - inversion Hsegs as [|? ? [Hne Hlen] Hrest]; subst.
    cbn [length] in Hseq, Hclear. cbn [send_all].
    destruct (sendPacket_clear seq segment written (length segments + count) net
                               ltac:(lia) Hlen Hat Hclear)
      as (net1 & Hsend & Hat1 & Hcl1 & Hl1).
    rewrite Hsend. rewrite Hne in Hat1.
    destruct (IH net1 (seq + 1) (written ++ wire_payload segment) count Hrest
                 ltac:(lia) Hat1 Hcl1) as (net' & Hrun & Hat' & Hcl' & Hl').
    rewrite Hl1 in Hrun. exists net'. rewrite Hrun.
    cbn [length map concat]. rewrite app_assoc.
    replace (seq + Z.of_nat (S (length segments)))
      with (seq + 1 + Z.of_nat (length segments)) by lia.
    repeat split; auto. lia.
Qed.

End NothingLost.

(** X17.  When nothing is lost the transfer completes.  If [mss] does
    not divide the length of the file and, on every link, as many
    datagrams pass as the file has segments, plus one for the end marker,
    then [main] returns without a single retransmission being needed,
    and every receiver has left its loop with the payloads of all
    segments in its file. *)
Theorem transfer_completes_when_nothing_is_lost
        (retries : nat) (net : Links) (contents : list byte) (mss : Z)
        (buffer : list byte) :
  0 < mss < MAX_MSS ->
  Z.of_nat (length contents) + 2 < INT_MAX ->
  Z.of_nat (length net) <= MAX_SERVERS ->
  Forall fresh net ->
  Z.of_nat (length contents) mod mss <> 0 ->
  Forall (clear_for (Z.to_nat (Z.of_nat (length contents) / mss) + 2)) net ->
  exists net',
    main Links over_links (S retries) (length net) net contents mss buffer = Done net'
    /\ Forall (finished_with
                 (concat (map wire_payload
                              (file_segments
                                 (Z.to_nat (Z.of_nat (length contents) / mss))
                                 (Z.to_nat mss) contents)))) net'.
Proof.
  intros Hmss Hlen Hservers Hfresh Hrem Hclear.
  rewrite main_as_calls by (assumption || lia).
  set (L := Z.of_nat (length contents)) in *.
  assert (HL : 0 <= L) by (unfold L; lia).
  assert (Hdiv : 0 <= L / mss) by (apply Z.div_pos; lia).
  assert (Hle : L / mss <= L) by (apply Z.div_le_upper_bound; nia).
  pose proof (Z.div_mod L mss ltac:(lia)) as Hdm.
  pose proof (Z.mod_pos_bound L mss ltac:(lia)) as Hmod.
  set (count := Z.to_nat (L / mss)) in *.
  destruct (file_segments_split count (Z.to_nat mss) contents)
    as (fulls & rest & Heq & Hall & Hcount & Hrest).
  { unfold count. fold L. nia. }
  assert (Hrest' : Z.of_nat (length rest) = L mod mss).
  { rewrite Hrest. unfold count. fold L. nia. }
  rewrite Heq, <- app_assoc.
  assert (Hsegs : Forall (fun segment => nonempty segment = true
                                         /\ Z.of_nat (length segment) < MAX_MSS)
                         (fulls ++ [rest])).
  { apply Forall_app. split.
    - eapply Forall_impl; [|exact Hall].
      intros segment Hs. cbv beta in Hs. unfold MAX_MSS in *.
      split; [destruct segment; [simpl in Hs; lia | reflexivity] | lia].
    - constructor; [|constructor]. unfold MAX_MSS in *.
      split; [destruct rest; [simpl in Hrest'; lia | reflexivity] | lia]. }
  assert (Hlength : length (fulls ++ [rest]) = S count)
    by (rewrite length_app; simpl; lia).
  rewrite app_assoc, send_all_app.
  destruct (send_all_clear retries (fulls ++ [rest]) net 0 [] 1 Hsegs)
    as (net1 & Hrun & Hat & Hcl & Hl).
  { rewrite Hlength. unfold count, INT_MAX in *. lia. }
  { eapply Forall_impl; [|exact Hfresh]. intros link. apply link_at_fresh. }
  { rewrite Hlength. replace (S count + 1)%nat with (count + 2)%nat by lia.
    exact Hclear. }
  rewrite Hrun. cbn [send_all].
  destruct (sendPacket_clear retries (0 + Z.of_nat (length (fulls ++ [rest]))) []
                             (concat (map wire_payload (fulls ++ [rest]))) 0 net1)
    as (net2 & Hsend & Hat2 & _ & _).
  { rewrite Hlength. unfold count, INT_MAX in *. lia. }
  { unfold MAX_MSS. simpl. lia. }
  { exact Hat. }
  { exact Hcl. }
  rewrite Hl in Hsend. cbn [length] in Hsend. change (Z.of_nat 0) with 0 in Hsend.
  cbn [length]. change (Z.of_nat 0) with 0.
  rewrite Hsend. exists net2. split; [reflexivity|].
  eapply Forall_impl; [|exact Hat2].
  intros link (st & Hpeer & _ & _ & Hfile). cbn [nonempty] in Hpeer.
  exists st. split; [assumption|].
  rewrite Hfile. cbn [wire_payload strncpy length]. now rewrite app_nil_r.
Qed.

Lemma transfer_completes_when_nothing_is_lost_witness :
  exists net',
    main Links over_links (S 0) (length one_link) one_link three_byte_file 2 blank_buffer
    = Done net'
    /\ Forall (finished_with
                 (concat (map wire_payload
                              (file_segments
                                 (Z.to_nat (Z.of_nat (length three_byte_file) / 2))
                                 (Z.to_nat 2) three_byte_file)))) net'.
Proof.
  apply (transfer_completes_when_nothing_is_lost 0 one_link three_byte_file 2 blank_buffer).
  - unfold MAX_MSS. lia.
  - unfold INT_MAX. simpl. lia.
  - unfold MAX_SERVERS. simpl. lia.
  - repeat constructor.
  - discriminate.
  - repeat constructor.
Defined.

(* ------------------------------------------------------------------ *)
(** ** The array list *)

Section ArrayListFacts.

Lemma realloc_one_cell (p : option ArrayList.block) :
  exists c, ArrayList.realloc p ArrayList.sizeof_ptr = [c].
Proof.
  unfold ArrayList.realloc, ArrayList.sizeof_ptr.
  change (Z.to_nat (8 / 8)) with 1%nat.
  destruct p as [[|c cells]|]; simpl; eauto.
Qed.

Lemma realloc_first_cell (c : option ArrayList.ptr) (cells : ArrayList.block) :
  ArrayList.realloc (Some (c :: cells)) ArrayList.sizeof_ptr = [c].
Proof.
  unfold ArrayList.realloc, ArrayList.sizeof_ptr.
  change (Z.to_nat (8 / 8)) with 1%nat. reflexivity.
Qed.

Lemma holding_get (pre post : list ArrayList.ptr) (p : ArrayList.ptr) :
  ArrayList.get (ArrayList.holding (pre ++ p :: post)) (Z.of_nat (length pre))
  = ArrayList.Ok p.
Proof.
  unfold ArrayList.get, ArrayList.holding. cbn [ArrayList.data].
  assert ((Z.of_nat (length pre) <? 0) = false) as -> by (apply Z.ltb_ge; lia).
  rewrite Nat2Z.id, map_app, nth_error_app2; rewrite length_map; [|lia].
  now rewrite Nat.sub_diag.
Qed.

Lemma search_holding (post pre : list ArrayList.ptr) (elem : ArrayList.ptr)
      (fuel : nat) :
  Z.of_nat (length (pre ++ post)) <= INT_MAX ->
  (length post < fuel)%nat ->
  ~ In elem pre ->
  exists r,
    ArrayList.search fuel (ArrayList.holding (pre ++ post)) elem
                     (Z.of_nat (length pre)) = ArrayList.Ok r
    /\ ((r = -1 /\ ~ In elem (pre ++ post))
        \/ (0 <= r
            /\ nth_error (pre ++ post) (Z.to_nat r) = Some elem
            /\ forall j, (j < Z.to_nat r)%nat ->
                         nth_error (pre ++ post) j <> Some elem)).
Proof.
  revert pre fuel.
  induction post as [|p post IH]; intros pre fuel Hlen Hfuel Hpre.
  - destruct fuel as [|fuel]; [inversion Hfuel|].
    exists (-1). cbn [ArrayList.search ArrayList.holding ArrayList.size].
    rewrite app_nil_r in *. unfold INT_MAX in Hlen.
    rewrite to_size_t_small by lia. rewrite Z.ltb_irrefl.
    split; auto.
  - destruct fuel as [|fuel]; [inversion Hfuel|].
    cbn [ArrayList.search].
    rewrite holding_get.
    unfold INT_MAX in Hlen. rewrite length_app in Hlen. cbn [length] in Hlen.
    cbn [ArrayList.holding ArrayList.size].
    rewrite to_size_t_small by lia.
    assert ((Z.of_nat (length pre) <? Z.of_nat (length (pre ++ p :: post))) = true)
      as -> by (apply Z.ltb_lt; rewrite length_app; cbn [length]; lia).
    destruct (elem =? p) eqn:Heq.
    + apply Z.eqb_eq in Heq. subst p.
      exists (Z.of_nat (length pre)). split; auto. right.
      rewrite Nat2Z.id. split; [lia|]. split.
      * rewrite nth_error_app2, Nat.sub_diag; auto.
      * intros j Hj Hnth. rewrite nth_error_app1 in Hnth by exact Hj.
        apply nth_error_In in Hnth. contradiction.
    + apply Z.eqb_neq in Heq.
      assert ((INT_MAX <? Z.of_nat (length pre) + 1) = false) as ->
          by (apply Z.ltb_ge; unfold INT_MAX; lia).
      pose proof (IH (pre ++ [p]) fuel) as IH'.
      rewrite <- app_assoc in IH'. cbn [app] in IH'.
      replace (Z.of_nat (length pre) + 1) with (Z.of_nat (length (pre ++ [p])))
        by (rewrite length_app; cbn [length]; lia).
      apply IH'.
      * unfold INT_MAX. rewrite length_app. cbn [length]. lia.
      * cbn [length] in Hfuel. lia.
      * intros Hin. apply in_app_or in Hin. destruct Hin as [Hin|[Hin|[]]]; auto.
Qed.

End ArrayListFacts.

(** X18.  [add] works on an empty list only.  It reallocates the block to
    the size of one pointer and then writes cell [size]: with [size = 0]
    the element becomes the only cell and the size 1; with any other size
    the write falls outside the block. *)
Theorem add_overruns_unless_empty (list : ArrayList.arrayList) (elem : ArrayList.ptr) :
  (ArrayList.size list = 0 ->
   ArrayList.add list elem
   = ArrayList.Ok {| ArrayList.size := 1; ArrayList.data := Some [Some elem] |})
  /\ (ArrayList.size list <> 0 -> ArrayList.add list elem = ArrayList.Fault).
Proof.
  unfold ArrayList.add, ArrayList.memorySize.
  destruct (realloc_one_cell (ArrayList.data list)) as [c ->].
  cbn [length]. split; intros Hsize.
  - rewrite Hsize. reflexivity.
  - destruct (0 <=? ArrayList.size list) eqn:H0; [|reflexivity].
    destruct (ArrayList.size list <? Z.of_nat 1) eqn:H1; [|reflexivity].
    apply Z.leb_le in H0. apply Z.ltb_lt in H1. lia.
Qed.

(** X19.  On a list that holds [elems], [getindex] returns the first
    position of [elem], and -1 when [elem] is not among them. *)
Theorem getindex_is_first_position (elems : list ArrayList.ptr) (elem : ArrayList.ptr) :
  Z.of_nat (length elems) <= INT_MAX ->
  exists r,
    ArrayList.getindex (ArrayList.holding elems) elem = ArrayList.Ok r
    /\ ((r = -1 /\ ~ In elem elems)
        \/ (0 <= r
            /\ nth_error elems (Z.to_nat r) = Some elem
            /\ forall j, (j < Z.to_nat r)%nat -> nth_error elems j <> Some elem)).
Proof.
  intros Hlen. unfold ArrayList.getindex.
  apply (search_holding elems [] elem); auto.
  unfold ArrayList.capacity, ArrayList.holding. cbn [ArrayList.data].
  rewrite length_map. lia.
Qed.

Lemma getindex_is_first_position_witness :
  exists r,
    ArrayList.getindex (ArrayList.holding [5; 6; 7; 6]) 6 = ArrayList.Ok r
    /\ ((r = -1 /\ ~ In 6 [5; 6; 7; 6])
        \/ (0 <= r
            /\ nth_error [5; 6; 7; 6] (Z.to_nat r) = Some 6
            /\ forall j, (j < Z.to_nat r)%nat -> nth_error [5; 6; 7; 6] j <> Some 6)).
Proof.
  apply (getindex_is_first_position [5; 6; 7; 6] 6). unfold INT_MAX. simpl. lia.
Defined.

(** X20.  [remove] on an empty list, whatever the index, does not return
    early: [index > size - 1] compares with the wrapped [size - 1].  With
    [freeit] 0 it goes on to decrement the size, so the list afterwards
    reports [SIZE_MAX] elements over a block of one cell. *)
Theorem remove_from_empty_list_wraps_size
        (list : ArrayList.arrayList) (index : Z) :
  ArrayList.size list = 0 ->
  exists list',
    ArrayList.remove list index 0 = ArrayList.Ok (list', [])
    /\ ArrayList.length list' = ArrayList.SIZE_MAX
    /\ ArrayList.capacity list' = 1%nat.
Proof.
  intros Hsize. unfold ArrayList.remove. rewrite Hsize.
  assert ((to_size_t index >? to_size_t (0 - 1)) = false) as ->.
  { unfold to_size_t. change ((0 - 1) mod 18446744073709551616) with 18446744073709551615.
    pose proof (Z.mod_pos_bound index 18446744073709551616 eq_refl).
    destruct (Z.gtb_spec (index mod 18446744073709551616) 18446744073709551615); auto; lia. }
  change (0 =? 1) with false. change (0 =? 0) with true. cbv iota.
  assert ((to_size_t index <? 0) = false) as Hlt.
  { unfold to_size_t. pose proof (Z.mod_pos_bound index 18446744073709551616 eq_refl).
    apply Z.ltb_ge. lia. }
  destruct (ArrayList.data list) as [cells|] eqn:Hdata.
  - cbn [ArrayList.shift]. rewrite Hlt.
    destruct (realloc_one_cell (Some cells)) as [c Hc].
    unfold ArrayList.memorySize. rewrite Hc.
    eexists. split; [reflexivity|]. split; reflexivity.
  - rewrite Hlt.
    destruct (realloc_one_cell None) as [c Hc].
    unfold ArrayList.memorySize. rewrite Hc.
    eexists. split; [reflexivity|]. split; reflexivity.
Qed.

Lemma remove_from_empty_list_wraps_size_witness :
  exists list',
    ArrayList.remove ArrayList.createList 0 0 = ArrayList.Ok (list', [])
    /\ ArrayList.length list' = ArrayList.SIZE_MAX
    /\ ArrayList.capacity list' = 1%nat.
Proof.
  apply (remove_from_empty_list_wraps_size ArrayList.createList 0). reflexivity.
Defined.

(** X21.  On a list of size 1, [remove] at index 0 clears the list and
    frees no element, also when [freeit] is set; at any other index it
    leaves the list as it is. *)
Theorem remove_of_only_element (list : ArrayList.arrayList) (freeit : Z) :
  ArrayList.size list = 1 ->
  ArrayList.remove list 0 freeit = ArrayList.Ok (ArrayList.clear list, [])
  /\ forall index, in_int index = true -> index <> 0 ->
                   ArrayList.remove list index freeit = ArrayList.Ok (list, []).
Proof.
  intros Hsize. unfold ArrayList.remove. rewrite Hsize. split.
  - reflexivity.
  - intros index Hint Hindex.
    unfold in_int, INT_MIN, INT_MAX in Hint.
    apply andb_prop in Hint. destruct Hint as [Hlo Hhi].
    apply Z.leb_le in Hlo. apply Z.leb_le in Hhi.
    assert ((to_size_t index >? to_size_t (1 - 1)) = true) as ->; [|reflexivity].
    change (to_size_t (1 - 1)) with 0. unfold to_size_t.
    destruct (Z.gtb_spec (index mod 18446744073709551616) 0) as [|Hle]; auto.
    pose proof (Z.mod_pos_bound index 18446744073709551616 eq_refl) as Hb.
    assert (index mod 18446744073709551616 = 0) as Hz by lia.
    apply Z.mod_divide in Hz; [|lia]. destruct Hz as [q Hq]. lia.
Qed.

Lemma remove_of_only_element_witness :
  ArrayList.remove (ArrayList.holding [5]) 0 1
  = ArrayList.Ok (ArrayList.clear (ArrayList.holding [5]), [])
  /\ forall index, in_int index = true -> index <> 0 ->
                   ArrayList.remove (ArrayList.holding [5]) index 1
                   = ArrayList.Ok (ArrayList.holding [5], []).
Proof.
  apply (remove_of_only_element (ArrayList.holding [5]) 1). reflexivity.
Defined.

Section Shifting.

Lemma store_cell_length (cells : ArrayList.block) (i : nat) (c : option ArrayList.ptr) :
  length (ArrayList.store_cell cells i c) = length cells.
Proof.
  revert i. induction cells as [|d cells IH]; intros [|i]; simpl; auto.
Qed.

Lemma store_cell_nth (cells : ArrayList.block) (i j : nat) (c : option ArrayList.ptr) :
  (i < length cells)%nat ->
  nth_error (ArrayList.store_cell cells i c) j
  = if (j =? i)%nat then Some c else nth_error cells j.
Proof.
  revert i j. induction cells as [|d cells IH]; intros i j Hi.
  - inversion Hi.
  - destruct i as [|i], j as [|j]; simpl; auto.
    apply IH. simpl in Hi. lia.
Qed.

(** The loop of [remove] on a block of [size] cells moves the cells after
    [i] one place down and puts [NULL] in the last. *)
Lemma shift_cells (k : nat) :
  forall (cells : ArrayList.block) (i fuel : nat),
    Z.of_nat (length cells) <= INT_MAX ->
    (i + k = length cells)%nat ->
    (k < fuel)%nat ->
    exists cells',
      ArrayList.shift fuel cells (Z.of_nat (length cells)) (Z.of_nat i)
      = ArrayList.Ok cells'
      /\ length cells' = length cells
      /\ forall j, (j < length cells)%nat ->
                   nth_error cells' j
                   = if (j <? i)%nat then nth_error cells j
                     else if (S j =? length cells)%nat
                          then Some (Some ArrayList.NULL)
                          else nth_error cells (S j).
Proof.
  induction k as [|k IH]; intros cells i fuel Hmax Hik Hfuel;
    unfold INT_MAX in Hmax.
  - destruct fuel as [|fuel]; [inversion Hfuel|].
    exists cells. cbn [ArrayList.shift].
    rewrite to_size_t_small by lia.
    assert ((Z.of_nat i <? Z.of_nat (length cells)) = false) as ->
        by (apply Z.ltb_ge; lia).
    repeat split; auto.
    intros j Hj. assert ((j <? i)%nat = true) as -> by (apply Nat.ltb_lt; lia).
    reflexivity.
  - destruct fuel as [|fuel]; [inversion Hfuel|].
    cbn [ArrayList.shift].
    rewrite !to_size_t_small by lia.
    assert ((Z.of_nat i <? Z.of_nat (length cells)) = true) as ->
        by (apply Z.ltb_lt; lia).
    assert ((Z.of_nat i <? 0) = false) as -> by (apply Z.ltb_ge; lia).
    assert ((Z.of_nat (length cells) <=? Z.of_nat i) = false) as ->
        by (apply Z.leb_gt; lia).
    assert ((INT_MAX <? Z.of_nat i + 1) = false) as ->
        by (apply Z.ltb_ge; unfold INT_MAX; lia).
    cbn [orb]. rewrite Nat2Z.id.
    replace (Z.to_nat (Z.of_nat i + 1)) with (S i) by lia.
    replace (Z.of_nat i + 1) with (Z.of_nat (S i)) by lia.
    set (c := if Z.of_nat i =? Z.of_nat (length cells) - 1
              then Some ArrayList.NULL
              else match nth_error cells (S i) with
                   | Some c => c
                   | None => None
                   end).
    assert (exists cells',
               ArrayList.shift fuel (ArrayList.store_cell cells i c)
                               (Z.of_nat (length cells)) (Z.of_nat (S i))
               = ArrayList.Ok cells'
               /\ length cells' = length cells
               /\ forall j, (j < length cells)%nat ->
                            nth_error cells' j
                            = if (j <? S i)%nat
                              then nth_error (ArrayList.store_cell cells i c) j
                              else if (S j =? length cells)%nat
                                   then Some (Some ArrayList.NULL)
                                   else nth_error (ArrayList.store_cell cells i c) (S j))
      as (cells' & Hrun & Hlen & Hnth).
    { destruct (IH (ArrayList.store_cell cells i c) (S i) fuel)
        as (cells' & Hrun & Hlen & Hnth);
        rewrite ?store_cell_length; unfold INT_MAX; try lia.
      rewrite store_cell_length in *.
      exists cells'. repeat split; auto. }
    assert (nth_error cells i <> None) as Hcell by (apply nth_error_Some; lia).
    exists cells'. split; [|split; [exact Hlen|]].
    + rewrite <- Hrun. subst c.
      destruct (Z.of_nat i =? Z.of_nat (length cells) - 1) eqn:Hlast; [reflexivity|].
      apply Z.eqb_neq in Hlast.
      destruct (nth_error cells (S i)) as [c|] eqn:Hnext; [reflexivity|].
      apply nth_error_None in Hnext. lia.
    + intros j Hj. rewrite (Hnth j Hj).
      rewrite !store_cell_nth by lia.
      destruct (Nat.ltb_spec j (S i)) as [Hlt|Hge].
      * destruct (Nat.eqb_spec j i) as [->|Hne].
        -- assert ((i <? i)%nat = false) as -> by (apply Nat.ltb_ge; lia).
           subst c.
           destruct (Nat.eqb_spec (S i) (length cells)) as [Heq|Hneq].
           ++ assert ((Z.of_nat i =? Z.of_nat (length cells) - 1) = true) as ->
                  by (apply Z.eqb_eq; lia).
              reflexivity.
           ++ assert ((Z.of_nat i =? Z.of_nat (length cells) - 1) = false) as ->
                  by (apply Z.eqb_neq; lia).
              destruct (nth_error cells (S i)) as [c|] eqn:Hnext; [reflexivity|].
              apply nth_error_None in Hnext. lia.
        -- assert ((j <? i)%nat = true) as -> by (apply Nat.ltb_lt; lia).
           reflexivity.
      * assert ((j <? i)%nat = false) as -> by (apply Nat.ltb_ge; lia).
        destruct (Nat.eqb_spec (S j) (length cells)); [reflexivity|].
        assert ((S j =? i)%nat = false) as -> by (apply Nat.eqb_neq; lia).
        reflexivity.
Qed.

End Shifting.

(** X22.  [remove] at a valid index of a list that holds two or more
    elements frees the element when [freeit] is set, moves the later
    elements down, and then reallocates the block to the size of one
    pointer: the size goes down by one, but only the first remaining
    element is still in the block. *)
Theorem remove_keeps_one_cell
        (elems : list ArrayList.ptr) (index freeit : Z) :
  2 <= Z.of_nat (length elems) <= INT_MAX ->
  0 <= index < Z.of_nat (length elems) ->
  ArrayList.remove (ArrayList.holding elems) index freeit
  = ArrayList.Ok
      ({| ArrayList.size := Z.of_nat (length elems) - 1;
          ArrayList.data :=
            Some [Some (nth (if index =? 0 then 1 else 0) elems ArrayList.NULL)] |},
       if freeit =? 0 then [] else [nth (Z.to_nat index) elems ArrayList.NULL]).
Proof.
  intros Hlen Hindex. unfold INT_MAX in Hlen.
  unfold ArrayList.remove.
  cbn [ArrayList.holding ArrayList.size ArrayList.data].
  rewrite !to_size_t_small by lia.
  assert ((index >? Z.of_nat (length elems) - 1) = false) as ->.
  { destruct (Z.gtb_spec index (Z.of_nat (length elems) - 1)); auto; lia. }
  assert ((Z.of_nat (length elems) =? 1) = false) as -> by (apply Z.eqb_neq; lia).
  assert (ArrayList.get (ArrayList.holding elems) index
          = ArrayList.Ok (nth (Z.to_nat index) elems ArrayList.NULL)) as Hget.
  { unfold ArrayList.get. cbn [ArrayList.holding ArrayList.data].
    assert ((index <? 0) = false) as -> by (apply Z.ltb_ge; lia).
    rewrite nth_error_map.
    rewrite (nth_error_nth' elems ArrayList.NULL) by lia. reflexivity. }
  rewrite Hget.
  destruct (shift_cells (length elems - Z.to_nat index) (map Some elems)
                        (Z.to_nat index) (S (length (map Some elems))))
    as (cells' & Hrun & Hlen' & Hnth);
    rewrite ?length_map; unfold INT_MAX; try lia.
  rewrite length_map in *. rewrite Z2Nat.id in Hrun by lia.
  assert (exists rest,
             cells' = Some (nth (if index =? 0 then 1 else 0) elems ArrayList.NULL)
                           :: rest) as [rest ->].
  { specialize (Hnth 0%nat ltac:(lia)).
    destruct cells' as [|c rest]; [simpl in Hlen'; lia|].
    exists rest. f_equal.
    change (nth_error (c :: rest) 0) with (Some c) in Hnth.
    destruct (Z.eqb_spec index 0) as [->|Hne].
    - change (0 <? Z.to_nat 0)%nat with false in Hnth.
      assert ((1 =? length elems)%nat = false) as Hone by (apply Nat.eqb_neq; lia).
      rewrite Hone, nth_error_map in Hnth.
      rewrite (nth_error_nth' elems ArrayList.NULL) in Hnth by lia.
      now injection Hnth as ->.
    - assert ((0 <? Z.to_nat index)%nat = true) as Hpos by (apply Nat.ltb_lt; lia).
      rewrite Hpos, nth_error_map in Hnth.
      rewrite (nth_error_nth' elems ArrayList.NULL) in Hnth by lia.
      now injection Hnth as ->. }
  rewrite Hrun. unfold ArrayList.memorySize.
  rewrite realloc_first_cell. unfold ArrayList.setData.
  assert (to_int (Z.of_nat (length elems) - 1) = Z.of_nat (length elems) - 1) as ->.
  { unfold to_int. rewrite Z.mod_small by lia. lia. }
  rewrite to_size_t_small by lia.
  destruct (freeit =? 0); reflexivity.
Qed.

Lemma remove_keeps_one_cell_witness :
  ArrayList.remove (ArrayList.holding [5; 6; 7]) 1 1
  = ArrayList.Ok
      ({| ArrayList.size := Z.of_nat (length [5; 6; 7]) - 1;
          ArrayList.data :=
            Some [Some (nth (if 1 =? 0 then 1 else 0) [5; 6; 7] ArrayList.NULL)] |},
       if 1 =? 0 then [] else [nth (Z.to_nat 1) [5; 6; 7] ArrayList.NULL]).
Proof.
  apply (remove_keeps_one_cell [5; 6; 7] 1 1); unfold INT_MAX; simpl; lia.
Defined.
